(** * Playback session model of the voice-channel music bot (src/bot.py)

    A shallow embedding of the session state ([GuildPlayer]), the registry
    ([players], [get_player]), the transport buttons ([MusicControls]), the
    playback loop ([play_next], [play_track]), the play command's dispatch
    and the interaction message handler ([MessageHandler]); and of what
    stands beside the session: the panel's progress bar and time format,
    the choice of the audio stream, the cookies read from the environment
    and the replies of the buttons.

    Conventions.
    - Timestamps and durations are integers counting microseconds, the
      resolution of [datetime]; [seconds n] is [n] seconds.  The source
      converts differences with [total_seconds()] and accumulates them in
      floats; rounding is not modelled.
    - Player objects live in a store ([heap]) and the registry maps a guild
      id to a location, as the Python dictionary maps it to an object.
    - The chat platform, the voice transport and the media resolver are
      outside the program: the answer of each such call is an argument of
      the function that makes the call.
    - A handler or task runs as one step.  What another task does while
      it is suspended at an [await] is not modelled; the completion
      callback that [voice_client.stop()] schedules is an event of its own
      ([PlaybackComplete]). *)

From stdpp Require Import gmap strings list pretty.
From Stdlib Require Import ZArith Lia QArith Qminmax Lqa.

Local Open Scope Z_scope.

(** ** Time *)

Definition seconds (n : Z) : Z := n * 1000000.

(** ** Voice client

    [guild.voice_client] is either absent or a connection whose audio
    player is running, paused, or absent/ended.  [is_playing()] holds for a
    running player only, [is_paused()] for a paused one only. *)

Inductive VoiceStatus : Type :=
| VoiceStopped
| VoicePlaying
| VoicePaused.

#[global] Instance VoiceStatus_eq_dec : EqDecision VoiceStatus.
Proof. solve_decision. Defined.

Definition is_playing (vc : option VoiceStatus) : bool :=
  match vc with Some VoicePlaying => true | _ => false end.

Definition is_paused_vc (vc : option VoiceStatus) : bool :=
  match vc with Some VoicePaused => true | _ => false end.

(** ** Track references and Python truthiness *)

(** [if s:] on a string: the empty string is false. *)
Definition truthy (s : string) : bool :=
  match s with EmptyString => false | String _ _ => true end.

(** [if x:] on an optional string ([None] or a string). *)
Definition truthy_opt (o : option string) : bool :=
  match o with Some s => truthy s | None => false end.

(** [url in l] *)
Definition mem_url (u : string) (l : list string) : bool :=
  bool_decide (u ∈ l).

(** Resolved metadata ([info]); only what the session logic reads. *)
Record TrackInfo : Type := {
  title : string;
  duration : Z
}.

(** A platform message handle. *)
Definition Message := Z.

(** ** GuildPlayer *)

Record GuildPlayer : Type := {
  guild : Z;
  queue : list string;
  playback_history : list string;
  loop_mode : Z;
  current_track_url : option string;
  player_message : option Message;
  current_track_info : option TrackInfo;
  start_time : option Z;
  last_update : option Z;
  pause_time : option Z;
  total_paused_time : Z;
  is_paused : bool;
  last_position : Z;
  position_update_time : option Z
}.

(** [GuildPlayer.__init__] *)
Definition GuildPlayer_init (g : Z) : GuildPlayer := {|
  guild := g;
  queue := [];
  playback_history := [];
  loop_mode := 0;
  current_track_url := None;
  player_message := None;
  current_track_info := None;
  start_time := None;
  last_update := None;
  pause_time := None;
  total_paused_time := 0;
  is_paused := false;
  last_position := 0;
  position_update_time := None
|}.

#[global] Instance GuildPlayer_inhabited : Inhabited GuildPlayer :=
  populate (GuildPlayer_init 0).

(** Field assignments. *)
Definition set_queue (v : list string) (p : GuildPlayer) : GuildPlayer :=
  Build_GuildPlayer (guild p) v (playback_history p) (loop_mode p)
    (current_track_url p) (player_message p) (current_track_info p)
    (start_time p) (last_update p) (pause_time p) (total_paused_time p)
    (is_paused p) (last_position p) (position_update_time p).

Definition set_playback_history (v : list string) (p : GuildPlayer) : GuildPlayer :=
  Build_GuildPlayer (guild p) (queue p) v (loop_mode p)
    (current_track_url p) (player_message p) (current_track_info p)
    (start_time p) (last_update p) (pause_time p) (total_paused_time p)
    (is_paused p) (last_position p) (position_update_time p).

Definition set_loop_mode (v : Z) (p : GuildPlayer) : GuildPlayer :=
  Build_GuildPlayer (guild p) (queue p) (playback_history p) v
    (current_track_url p) (player_message p) (current_track_info p)
    (start_time p) (last_update p) (pause_time p) (total_paused_time p)
    (is_paused p) (last_position p) (position_update_time p).

Definition set_current_track_url (v : option string) (p : GuildPlayer) : GuildPlayer :=
  Build_GuildPlayer (guild p) (queue p) (playback_history p) (loop_mode p)
    v (player_message p) (current_track_info p)
    (start_time p) (last_update p) (pause_time p) (total_paused_time p)
    (is_paused p) (last_position p) (position_update_time p).

Definition set_player_message (v : option Message) (p : GuildPlayer) : GuildPlayer :=
  Build_GuildPlayer (guild p) (queue p) (playback_history p) (loop_mode p)
    (current_track_url p) v (current_track_info p)
    (start_time p) (last_update p) (pause_time p) (total_paused_time p)
    (is_paused p) (last_position p) (position_update_time p).

Definition set_current_track_info (v : option TrackInfo) (p : GuildPlayer) : GuildPlayer :=
  Build_GuildPlayer (guild p) (queue p) (playback_history p) (loop_mode p)
    (current_track_url p) (player_message p) v
    (start_time p) (last_update p) (pause_time p) (total_paused_time p)
    (is_paused p) (last_position p) (position_update_time p).

Definition set_pause (pt : option Z) (b : bool) (p : GuildPlayer) : GuildPlayer :=
  Build_GuildPlayer (guild p) (queue p) (playback_history p) (loop_mode p)
    (current_track_url p) (player_message p) (current_track_info p)
    (start_time p) (last_update p) pt (total_paused_time p)
    b (last_position p) (position_update_time p).

Definition set_total_paused_time (v : Z) (p : GuildPlayer) : GuildPlayer :=
  Build_GuildPlayer (guild p) (queue p) (playback_history p) (loop_mode p)
    (current_track_url p) (player_message p) (current_track_info p)
    (start_time p) (last_update p) (pause_time p) v
    (is_paused p) (last_position p) (position_update_time p).

(** [self.last_position = pos; self.position_update_time = t] *)
Definition set_position (pos : Z) (t : option Z) (p : GuildPlayer) : GuildPlayer :=
  Build_GuildPlayer (guild p) (queue p) (playback_history p) (loop_mode p)
    (current_track_url p) (player_message p) (current_track_info p)
    (start_time p) (last_update p) (pause_time p) (total_paused_time p)
    (is_paused p) pos t.

(** The clock reset of [play_track] (lines 604-610):
    [start_time = now], [last_update = None], [pause_time = None],
    [total_paused_time = 0], [is_paused = False], [last_position = 0],
    [position_update_time = None]. *)
Definition reset_clock (now : Z) (p : GuildPlayer) : GuildPlayer :=
  Build_GuildPlayer (guild p) (queue p) (playback_history p) (loop_mode p)
    (current_track_url p) (player_message p) (current_track_info p)
    (Some now) None None 0 false 0 None.

(** ** Clock: [get_elapsed_time], [pause], [resume] *)

(** [voice_client.source.position if hasattr(voice_client.source,
    'position') else 0], read only when a voice client exists and is
    playing.  [src_pos] is [None] when the source has no such attribute. *)
Definition source_position (src_pos : option Z) : Z :=
  match src_pos with Some x => x | None => 0 end.

(** The time-based value of the fallback branch (lines 225-230). *)
Definition time_based (now st : Z) (p : GuildPlayer) : Z :=
  match is_paused p, pause_time p with
  | true, Some pt => pt - st - total_paused_time p
  | _, _ => now - st - total_paused_time p
  end.

(** Lines 233-236. *)
Definition fallback_elapsed (now st : Z) (p : GuildPlayer) : Z :=
  let elapsed := time_based now st p in
  let elapsed :=
    match position_update_time p with
    | Some tu =>
        if now - tu <? seconds 5 then Z.max elapsed (last_position p)
        else elapsed
    | None => elapsed
    end in
  Z.max 0 elapsed.

(** [GuildPlayer.get_elapsed_time]: the value returned and the player
    after the call (the live branch stores the position it read). *)
Definition get_elapsed_time (now : Z) (vc : option VoiceStatus)
    (src_pos : option Z) (p : GuildPlayer) : Z * GuildPlayer :=
  match start_time p with
  | None => (0, p)
  | Some st =>
      if is_playing vc && (0 <? source_position src_pos) then
        (source_position src_pos,
         set_position (source_position src_pos) (Some now) p)
      else (fallback_elapsed now st p, p)
  end.

(** [GuildPlayer.pause] *)
Definition pause (now : Z) (p : GuildPlayer) : GuildPlayer :=
  if is_paused p then p else set_pause (Some now) true p.

(** [GuildPlayer.resume] *)
Definition resume (now : Z) (p : GuildPlayer) : GuildPlayer :=
  match is_paused p, pause_time p with
  | true, Some pt =>
      set_pause None false
        (set_total_paused_time (total_paused_time p + (now - pt)) p)
  | _, _ => p
  end.

(** ** The registry and the object store

    [players] is the module-level dictionary; [heap] holds the
    [GuildPlayer] objects it refers to; [voice] gives each guild's
    [voice_client] (absent when the bot is not connected there);
    [deleted] lists the messages the program has deleted on the platform. *)

Record World : Type := {
  players : gmap Z nat;
  heap : gmap nat GuildPlayer;
  next_loc : nat;
  voice : gmap Z VoiceStatus;
  deleted : list Message
}.

Definition World_init : World :=
  {| players := ∅; heap := ∅; next_loc := 0%nat; voice := ∅; deleted := [] |}.

Definition set_players (m : gmap Z nat) (w : World) : World :=
  {| players := m; heap := heap w; next_loc := next_loc w; voice := voice w;
     deleted := deleted w |}.

Definition set_voice (v : gmap Z VoiceStatus) (w : World) : World :=
  {| players := players w; heap := heap w; next_loc := next_loc w; voice := v;
     deleted := deleted w |}.

(** The answer to [message.delete()]. *)
Inductive DeleteAnswer : Type :=
| Deleted
| DeleteNotFound   (* [discord.NotFound] *)
| DeleteFailed.    (* any other exception *)

(** [if m: await m.delete()] as far as the platform is concerned. *)
Definition delete_message (m : option Message) (d : DeleteAnswer) (w : World) : World :=
  match m, d with
  | Some x, Deleted =>
      {| players := players w; heap := heap w; next_loc := next_loc w;
         voice := voice w; deleted := deleted w ++ [x] |}
  | _, _ => w
  end.

(** The object at a location. *)
Definition obj (l : nat) (w : World) : GuildPlayer := heap w !!! l.

(** An in-place mutation of the object at [l]. *)
Definition upd (l : nat) (f : GuildPlayer -> GuildPlayer) (w : World) : World :=
  {| players := players w;
     heap := <[l := f (obj l w)]> (heap w);
     next_loc := next_loc w;
     voice := voice w;
     deleted := deleted w |}.

(** [get_player]: the registered object, created on first access. *)
Definition get_player (g : Z) (w : World) : nat * World :=
  match players w !! g with
  | Some l => (l, w)
  | None =>
      let l := next_loc w in
      (l, {| players := <[g := l]> (players w);
             heap := <[l := GuildPlayer_init g]> (heap w);
             next_loc := S l;
             voice := voice w;
             deleted := deleted w |})
  end.

(** [voice_client.stop()]: the audio player, if any, is ended. *)
Definition voice_stop (g : Z) (w : World) : World :=
  match voice w !! g with
  | Some _ => set_voice (<[g := VoiceStopped]> (voice w)) w
  | None => w
  end.

(** ** play_track *)

(** What the platform and the resolver answer during one [play_track].
    The media resolution of lines 650-795 (extraction with and without
    cookies, choice of the audio format) is one answer: the metadata, or
    [None] for the [ValueError] every failure there ends in. *)
Record PlayAnswers : Type := {
  old_panel : DeleteAnswer;     (* [player.player_message.delete()], line 587 *)
  author_in_voice : bool;       (* [ctx.author.voice] *)
  connect_ok : bool;            (* [channel.connect], line 630 *)
  voice_state_ok : bool;        (* [ctx.guild.change_voice_state], line 640 *)
  resolved : option TrackInfo;  (* lines 650-795; [None]: a [ValueError] *)
  start_ok : bool;              (* [FFmpegOpusAudio(...)] and [voice_client.play] *)
  panel : option Message        (* [ctx.channel.send(embed=...)]; [None]: it raised *)
}.

(** How far a [play_track] call got. *)
Inductive PlayResult : Type :=
| NotInVoiceChannel   (* line 618, returns *)
| ConnectFailed       (* line 648 *)
| ResolveFailed       (* lines 750-759, 792 *)
| StartFailed         (* line 847 *)
| Started.

#[global] Instance PlayResult_eq_dec : EqDecision PlayResult.
Proof. solve_decision. Defined.

(** The stage of [play_track] at which the history has been written. *)
Definition past_resolution (r : PlayResult) : bool :=
  match r with Started | StartFailed => true | _ => false end.

(** Lines 797-800. *)
Definition record_history (url : string) (p : GuildPlayer) : GuildPlayer :=
  if mem_url url (playback_history p) then p
  else set_playback_history (playback_history p ++ [url]) p.

(** Lines 798-859, once a voice client exists. *)
Definition play_resolved (g : Z) (l : nat) (url : string) (a : PlayAnswers)
    (w : World) : PlayResult * World :=
  match resolved a with
  | None => (ResolveFailed, w)
  | Some info =>
      let w := upd l (fun p => record_history url (set_current_track_info (Some info) p)) w in
      if start_ok a then
        let w := set_voice (<[g := VoicePlaying]> (voice w)) w in
        match panel a with
        | Some m => (Started, upd l (set_player_message (Some m)) w)
        | None => (Started, w)
        end
      else
        (StartFailed,
         upd l (fun p => set_current_track_info None (set_current_track_url None p)) w)
  end.

Definition play_track (g : Z) (url : string) (now : Z) (a : PlayAnswers)
    (w : World) : PlayResult * World :=
  let '(l, w) := get_player g w in
  let voice_client := voice w !! g in
  (* lines 584-592: every exception of the deletion is caught *)
  let w := delete_message (player_message (obj l w)) (old_panel a) w in
  let w := upd l (set_player_message None) w in
  (* lines 595-599 *)
  let w := if is_playing voice_client then voice_stop g w else w in
  (* lines 602-610 *)
  let w := upd l (fun p => reset_clock now
                    (set_current_track_info None
                       (set_current_track_url (Some url) p))) w in
  (* lines 616-648 *)
  match voice_client with
  | None =>
      if negb (author_in_voice a) then (NotInVoiceChannel, w)
      else if connect_ok a then
        let w := set_voice (<[g := VoiceStopped]> (voice w)) w in
        if voice_state_ok a then play_resolved g l url a w
        else (ConnectFailed, w)
      else (ConnectFailed, w)
  | Some _ => play_resolved g l url a w
  end.

(** ** play_next *)

(** Lines 517-524: the queue after the loop handling. *)
Definition loop_requeue (p : GuildPlayer) : list string :=
  match current_track_url p with
  | Some c =>
      if truthy c then
        if loop_mode p =? 1 then c :: queue p
        else if loop_mode p =? 2 then queue p ++ [c]
        else queue p
      else queue p
  | None => queue p
  end.

(** Lines 517-528. *)
Definition finish_current (p : GuildPlayer) : GuildPlayer :=
  set_current_track_info None
    (set_current_track_url None (set_queue (loop_requeue p) p)).

(** [play_next] up to the point where it either hands over to
    [play_track] or goes to sleep for the inactivity window.  The second
    component tells which: [Some r] is [play_track]'s result. *)
Definition play_next (g : Z) (now : Z) (a : PlayAnswers) (w : World)
    : option PlayResult * World :=
  let '(l, w) := get_player g w in
  let w := upd l finish_current w in
  match queue (obj l w) with
  | next_url :: rest =>
      let w := upd l (set_queue rest) w in
      let '(r, w) := play_track g next_url now a w in
      (Some r, w)
  | [] => (None, w)
  end.

(** Lines 545-549, after the sleep; [l] is the object [play_next] held. *)
Definition inactivity_timeout (g : Z) (l : nat) (w : World) : World :=
  match voice w !! g with
  | Some vs =>
      if negb (is_playing (Some vs)) && bool_decide (queue (obj l w) = []) then
        set_players (delete g (players w)) (set_voice (delete g (voice w)) w)
      else w
  | None => w
  end.

(** [handle_playback_complete]: the completion callback of the audio
    player.  Its reconnection attempt after a connection error touches the
    voice client only (see [VoiceChange] below); it ends in [play_next]. *)
Definition handle_playback_complete (g : Z) (now : Z) (a : PlayAnswers)
    (w : World) : option PlayResult * World :=
  play_next g now a w.

(** ** MusicControls *)

(** What a handler tells the user through [handle_interaction], or
    [Unhandled] when an exception leaves the handler, or [NoReply]. *)
Inductive Reply : Type :=
| PlayingPrevious        (* "Playing previous track." *)
| NotConnectedToVoice    (* "Not connected to voice channel." *)
| NoPreviousTrack        (* "No previous track in history." *)
| Resumed
| Paused
| StartingPlayback
| NothingInQueue         (* "Nothing in queue to play." *)
| Skipped
| NothingToSkip
| LoopModeSet (status : string)
| PlaybackStopped        (* "Playback stopped and queue cleared." *)
| MustBeInVoice          (* "You must be in a voice channel first!" *)
| SearchFailed
| AddedToQueue
| PlayTrackReply (r : PlayResult)
| NoReply
| Unhandled.

#[global] Instance Reply_eq_dec : EqDecision Reply.
Proof. solve_decision. Defined.

(** A reply that reports a failure to the user. *)
Definition is_failure (r : Reply) : bool :=
  match r with
  | NotConnectedToVoice | NoPreviousTrack | NothingInQueue | NothingToSkip
  | MustBeInVoice | SearchFailed => true
  | _ => false
  end.

(** [l.pop()] on a list: the list without its last element. *)
Definition pop_last (l : list string) : list string := removelast l.

(** Lines 294-301 on the player object. *)
Definition previous_requeue (p : GuildPlayer) : GuildPlayer :=
  let q := match current_track_url p with
           | Some c => if truthy c then c :: queue p else queue p
           | None => queue p
           end in
  let h1 := pop_last (playback_history p) in
  match last h1 with
  | Some prev_track =>
      set_queue (prev_track :: q) (set_playback_history (pop_last h1) p)
  | None => p (* not reached: the caller checks the length *)
  end.

(** [MusicControls.previous_button] *)
Definition previous_button (g : Z) (w : World) : Reply * World :=
  let '(l, w) := get_player g w in
  if (1 <? length (playback_history (obj l w)))%nat then
    let w := upd l previous_requeue w in
    match voice w !! g with
    | Some _ => (PlayingPrevious, voice_stop g w)
    | None => (NotConnectedToVoice, w)
    end
  else (NoPreviousTrack, w).

(** [MusicControls.play_pause_button] *)
Definition play_pause_button (g : Z) (now : Z) (a : PlayAnswers) (w : World)
    : Reply * World :=
  let '(l, w) := get_player g w in
  match voice w !! g with
  | Some VoicePaused =>
      (Resumed, upd l (resume now) (set_voice (<[g := VoicePlaying]> (voice w)) w))
  | Some VoicePlaying =>
      (Paused, upd l (pause now) (set_voice (<[g := VoicePaused]> (voice w)) w))
  | Some VoiceStopped =>
      match queue (obj l w) with
      | next_url :: rest =>
          (StartingPlayback,
           snd (play_track g next_url now a (upd l (set_queue rest) w)))
      | [] => (NothingInQueue, w)
      end
  | None => (NoReply, w)
  end.

(** [MusicControls.skip_button].  The second branch of the source reads
    [player.queue] although no [player] is bound in this handler, so it
    raises [NameError] whenever a voice client exists and is not playing. *)
Definition skip_button (g : Z) (w : World) : Reply * World :=
  match voice w !! g with
  | Some VoicePlaying => (Skipped, voice_stop g w)
  | Some _ => (Unhandled, w)
  | None => (NothingToSkip, w)
  end.

Definition loop_status (m : Z) : string :=
  if m =? 0 then "Off" else if m =? 1 then "Track" else "Queue".

(** [MusicControls.loop_button] *)
Definition loop_button (g : Z) (w : World) : Reply * World :=
  let '(l, w) := get_player g w in
  let w := upd l (fun p => set_loop_mode ((loop_mode p + 1) `mod` 3) p) w in
  (LoopModeSet (loop_status (loop_mode (obj l w))), w).

(** [MusicControls.stop_button].  Only [discord.NotFound] is caught around
    the deletion of the panel; another exception leaves the handler before
    [players.pop]. *)
Definition stop_button (g : Z) (d : DeleteAnswer) (w : World) : Reply * World :=
  let '(l, w) := get_player g w in
  match voice w !! g with
  | Some _ =>
      let w := upd l (set_queue []) w in
      let w := voice_stop g w in
      let w := set_voice (delete g (voice w)) w in
      match player_message (obj l w), d with
      | Some _, DeleteFailed => (Unhandled, w)
      | m, _ =>
          let w := delete_message m d w in
          (PlaybackStopped, set_players (delete g (players w)) w)
      end
  | None => (NotConnectedToVoice, w)
  end.

(** ** play_command *)

(** The dispatch of [play_command] (lines 1160-1333).  [user_in_voice] is
    [interaction.user.voice]; [found] is the track reference the search
    settled on, [None] when every strategy failed. *)
Definition play_command (g : Z) (now : Z) (user_in_voice : bool)
    (found : option string) (a : PlayAnswers) (w : World) : Reply * World :=
  if negb user_in_voice then (MustBeInVoice, w)
  else
    let '(l, w) := get_player g w in
    match found with
    | None => (SearchFailed, w)
    | Some url =>
        if negb (is_playing (voice w !! g)) then
          let '(r, w) := play_track g url now a w in (PlayTrackReply r, w)
        else (AddedToQueue, upd l (fun p => set_queue (queue p ++ [url]) p) w)
    end.

(** ** Background tasks and events *)

(** One iteration of [update_progress] on the object it holds; the
    loop's own counters are not modelled.  [stuck] says that the stuck
    counter has reached 3 (line 943); [recreated] is the new panel when
    the old one was found deleted (lines 969, 983). *)
Definition update_progress_iteration (g : Z) (l : nat) (now : Z)
    (src_pos : option Z) (stuck : bool) (recreated : option Message)
    (w : World) : World :=
  if truthy_opt (current_track_url (obj l w)) && is_playing (voice w !! g) then
    let w := upd l (fun p => snd (get_elapsed_time now (voice w !! g) src_pos p)) w in
    let w := match src_pos with
             | Some x => if stuck then upd l (set_position x (Some now)) w else w
             | None => w
             end in
    match player_message (obj l w), recreated with
    | Some _, Some m => upd l (set_player_message (Some m)) w
    | _, _ => w
    end
  else w.

(** [on_voice_state_update] for the bot's own disconnection. *)
Definition on_voice_state_update (g : Z) (d : DeleteAnswer)
    (reconnected : bool) (w : World) : World :=
  match players w !! g with
  | Some l =>
      match player_message (obj l w), d with
      | Some _, DeleteFailed => w
      | m, _ =>
          let w := delete_message m d w in
          if reconnected then set_voice (<[g := VoiceStopped]> (voice w)) w
          else set_players (delete g (players w)) w
      end
  | None => w
  end.

(** [on_shutdown] *)
Definition on_shutdown (w : World) : World :=
  set_players ∅ (set_voice ∅ w).

(** ** Reachable worlds *)

(** Everything that can happen to a world: a handler or task of the
    program runs, or the platform changes the voice clients on its own (a
    track ends, a connection drops). *)
Inductive Event : Type :=
| PlayCommand (g now : Z) (user_in_voice : bool) (found : option string) (a : PlayAnswers)
| PlaybackComplete (g now : Z) (a : PlayAnswers)
| InactivityTimeout (g : Z) (l : nat)
| PreviousButton (g : Z)
| PlayPauseButton (g now : Z) (a : PlayAnswers)
| SkipButton (g : Z)
| LoopButton (g : Z)
| StopButton (g : Z) (d : DeleteAnswer)
| ProgressIteration (g : Z) (l : nat) (now : Z) (src_pos : option Z)
    (stuck : bool) (recreated : option Message)
| VoiceStateUpdate (g : Z) (d : DeleteAnswer) (reconnected : bool)
| Shutdown
| VoiceChange (v : gmap Z VoiceStatus).

Definition apply_event (e : Event) (w : World) : World :=
  match e with
  | PlayCommand g now uv found a => snd (play_command g now uv found a w)
  | PlaybackComplete g now a => snd (handle_playback_complete g now a w)
  | InactivityTimeout g l => inactivity_timeout g l w
  | PreviousButton g => snd (previous_button g w)
  | PlayPauseButton g now a => snd (play_pause_button g now a w)
  | SkipButton g => snd (skip_button g w)
  | LoopButton g => snd (loop_button g w)
  | StopButton g d => snd (stop_button g d w)
  | ProgressIteration g l now sp rs rc =>
      update_progress_iteration g l now sp rs rc w
  | VoiceStateUpdate g d rc => on_voice_state_update g d rc w
  | Shutdown => on_shutdown w
  | VoiceChange v => set_voice v w
  end.

(** A task holds an object that exists. *)
Definition enabled (e : Event) (w : World) : Prop :=
  match e with
  | InactivityTimeout _ l | ProgressIteration _ l _ _ _ _ => (l < next_loc w)%nat
  | _ => True
  end.

Inductive reachable : World -> Prop :=
| reachable_init : reachable World_init
| reachable_step e w : reachable w -> enabled e w -> reachable (apply_event e w).

(** Locations at or above [next_loc] are free, and the registry refers to
    allocated locations only. *)
Definition store_ok (w : World) : Prop :=
  (forall l, (next_loc w <= l)%nat -> heap w !! l = None) /\
  (forall g l, players w !! g = Some l -> (l < next_loc w)%nat).

(** [w'] comes after [w]: the store is still in order, nothing was
    deallocated, and every object is related to what it was by [R]. *)
Definition extends (R : GuildPlayer -> GuildPlayer -> Prop) (w w' : World) : Prop :=
  store_ok w' /\
  (next_loc w <= next_loc w')%nat /\
  forall l, R (obj l w) (obj l w').


(** A player object is in order: its loop mode is one of the three codes
    and its history holds no reference twice. *)
Definition player_ok (p : GuildPlayer) : Prop :=
  (loop_mode p = 0 \/ loop_mode p = 1 \/ loop_mode p = 2) /\
  NoDup (playback_history p).

(** ** Sequences of clock calls *)

Inductive ClockCall : Type :=
| CallPause
| CallResume.



(** The calls happen in time order, none before [from], none after [to]. *)
Fixpoint chronological (from : Z) (calls : list (Z * ClockCall)) (to : Z) : Prop :=
  match calls with
  | [] => from <= to
  | (t, _) :: rest => from <= t /\ chronological t rest to
  end.

(** ** The elapsed time as the specification words it

    "(pausedAt or now) - startedAt - totalPausedDuration", and: "if an
    external position sample exists and is less than 5 seconds old, the
    larger of (time-based estimate, sampled position); otherwise the
    estimate floored at 0". *)



(** ** MessageHandler

    The handler talks to the platform and any of its calls can raise, so
    its methods are written in a state-and-exception monad: a computation
    takes the handler and the record of calls made so far and either
    returns or raises, with the state as it is at that point (Python keeps
    the assignments made before an exception). *)

Module MessageHandler.

(** The exceptions the source tells apart: [discord.NotFound] and the
    rest of [Exception]. *)
Inductive Exn : Type :=
| NotFound
| OtherError.

(** The calls attempted on the platform. *)
Inductive Call : Type :=
| Defer
| Edit (m : Message) (content : string)
| FollowupSend (content : string)
| ChannelSend (content : string).

(** The platform: whether its [n]-th call raises, and the handle of the
    message a successful send creates. *)
Record Platform : Type := {
  raises : nat -> option Exn;
  created : nat -> Message
}.

Record Handler : Type := {
  message : option Message;
  initialized : bool;
  last_error : option Exn;
  message_history : list (string * string * string);
  last_send_attempt : option string;
  last_send_error : option Exn;
  thinking_message : option Message
}.


Record State : Type := {
  handler : Handler;
  calls : list Call
}.

Inductive Result (A : Type) : Type :=
| Returns (a : A)
| Raises (e : Exn).
Arguments Returns {A} a.
Arguments Raises {A} e.

Definition M (A : Type) : Type := State -> Result A * State.

Definition ret {A} (a : A) : M A := fun s => (Returns a, s).

Definition bind {A B} (m : M A) (k : A -> M B) : M B :=
  fun s => match m s with
           | (Returns a, s') => k a s'
           | (Raises e, s') => (Raises e, s')
           end.


(** [try: m  except Exception as e: h e] *)
Definition try_except {A} (m : M A) (h : Exn -> M A) : M A :=
  fun s => match m s with
           | (Returns a, s') => (Returns a, s')
           | (Raises e, s') => h e s'
           end.

Notation "x <- m ;; k" := (bind m (fun x => k))
  (at level 100, m at next level, right associativity).
Notation "m ;; k" := (bind m (fun _ => k))
  (at level 100, right associativity).


Definition modify (f : Handler -> Handler) : M unit :=
  fun s => (Returns tt, {| handler := f (handler s); calls := calls s |}).

Definition set_message (v : option Message) (h : Handler) : Handler :=
  {| message := v; initialized := initialized h; last_error := last_error h;
     message_history := message_history h;
     last_send_attempt := last_send_attempt h;
     last_send_error := last_send_error h;
     thinking_message := thinking_message h |}.

Definition set_initialized (v : bool) (h : Handler) : Handler :=
  {| message := message h; initialized := v; last_error := last_error h;
     message_history := message_history h;
     last_send_attempt := last_send_attempt h;
     last_send_error := last_send_error h;
     thinking_message := thinking_message h |}.

Definition set_last_error (v : option Exn) (h : Handler) : Handler :=
  {| message := message h; initialized := initialized h; last_error := v;
     message_history := message_history h;
     last_send_attempt := last_send_attempt h;
     last_send_error := last_send_error h;
     thinking_message := thinking_message h |}.



Definition set_thinking_message (v : option Message) (h : Handler) : Handler :=
  {| message := message h; initialized := initialized h; last_error := last_error h;
     message_history := message_history h;
     last_send_attempt := last_send_attempt h;
     last_send_error := last_send_error h;
     thinking_message := v |}.

(** [_log_message(action, status, details)]; the entry is kept as its
    three parts. *)
Definition _log_message (action status details : string) : M unit :=
  modify (fun h =>
    {| message := message h; initialized := initialized h;
       last_error := last_error h;
       message_history := message_history h ++ [(action, status, details)];
       last_send_attempt := last_send_attempt h;
       last_send_error := last_send_error h;
       thinking_message := thinking_message h |}).

Section WithPlatform.

Variable platform : Platform.

(** One call on the platform: it is recorded, then it raises or not. *)
Definition call (c : Call) : M nat :=
  fun s =>
    let n := length (calls s) in
    let s' := {| handler := handler s; calls := calls s ++ [c] |} in
    match raises platform n with
    | Some e => (Raises e, s')
    | None => (Returns n, s')
    end.



Definition channel_send (content : string) : M Message :=
  n <- call (ChannelSend content) ;; ret (created platform n).

(** Whitespace for [str.strip()], within ASCII. *)
Definition is_space (c : Ascii.ascii) : bool :=
  let n := Ascii.nat_of_ascii c in
  ((9 <=? n) && (n <=? 13) || (28 <=? n) && (n <=? 32))%nat.

Fixpoint all_space (s : string) : bool :=
  match s with
  | EmptyString => true
  | String c r => is_space c && all_space r
  end.

(** [not content or not content.strip()] *)
Definition is_blank (content : string) : bool := all_space content.

Definition searching : string := "Searching for your song...".

(** [MessageHandler.initialize].  The source keeps what
    [interaction.original_response()] returns without awaiting it; whether
    a later edit of it succeeds is the platform's answer to that call. *)
Definition initialize : M unit :=
  try_except
    (_log_message "Initialize" "Attempting to defer response" "" ;;
     n <- call Defer ;;
     modify (set_initialized true) ;;
     modify (set_thinking_message (Some (created platform n))) ;;
     _log_message "Initialize" "Success" "Response deferred")
    (fun e =>
       match e with
       | NotFound =>
           _log_message "Initialize" "Failed" "Interaction expired" ;;
           m <- channel_send searching ;;
           modify (set_message (Some m)) ;;
           modify (set_initialized true) ;;
           _log_message "Initialize" "Fallback" "Sent new message"
       | OtherError =>
           modify (set_last_error (Some e)) ;;
           _log_message "Initialize" "Error" "Unexpected error" ;;
           m <- channel_send searching ;;
           modify (set_message (Some m)) ;;
           modify (set_initialized true) ;;
           _log_message "Initialize" "Recovery" "Sent new message after error"
       end).








End WithPlatform.

End MessageHandler.

(** ** Example sessions *)

(** Every call on the platform succeeds; the panel gets handle 100. *)
Definition all_fine : PlayAnswers := {|
  old_panel := Deleted;
  author_in_voice := true;
  connect_ok := true;
  voice_state_ok := true;
  resolved := Some {| title := "track"; duration := seconds 200 |};
  start_ok := true;
  panel := Some 100
|}.

(** Guild 1 asks for C, then for A and B while C plays: C is current
    and the queue is A, B. *)
Definition session_C_AB : World :=
  apply_event (PlayCommand 1 (seconds 2) true (Some "B") all_fine)
    (apply_event (PlayCommand 1 (seconds 1) true (Some "A") all_fine)
       (apply_event (PlayCommand 1 0 true (Some "C") all_fine) World_init)).

(** Guild 1 plays C and the user has pressed pause. *)
Definition session_C_paused : World :=
  apply_event (PlayPauseButton 1 (seconds 5) all_fine)
    (apply_event (PlayCommand 1 0 true (Some "C") all_fine) World_init).


(** Guild 1 plays C with A, B queued, and the user has pressed skip: the
    stream was stopped by force and its completion is on its way. *)
Definition session_C_skipped : World :=
  apply_event (SkipButton 1) session_C_AB.

(** Guild 1 played A, then B, and A again. *)
Definition session_replay : World :=
  apply_event (PlaybackComplete 1 (seconds 400) all_fine)
    (apply_event (PlayCommand 1 (seconds 300) true (Some "A") all_fine)
       (apply_event (PlaybackComplete 1 (seconds 200) all_fine)
          (apply_event (PlayCommand 1 (seconds 1) true (Some "B") all_fine)
             (apply_event (PlayCommand 1 0 true (Some "A") all_fine) World_init)))).




(** ** Presentation helpers

    Text that the source slices by character is a list of Unicode code
    points. *)








(** [f"{n:02d}"] *)
Definition pad2 (n : Z) : string :=
  let s := pretty n in
  if (String.length s <? 2)%nat then "0" +:+ s else s.

(** [format_time], on a time in microseconds: [int(seconds)] drops the
    fraction. *)
Definition format_time (t : Z) : string :=
  let seconds := Z.quot t 1000000 in
  if seconds <? 3600 then
    pad2 (seconds `div` 60) +:+ ":" +:+ pad2 (seconds `mod` 60)
  else
    pad2 (seconds `div` 3600) +:+ ":" +:+ pad2 ((seconds `mod` 3600) `div` 60)
      +:+ ":" +:+ pad2 (seconds `mod` 60).


(** ** What the progress task leaves alone *)

(** Every field of a player but the position sample ([last_position],
    [position_update_time]) and the panel handle ([player_message]). *)
Definition session_fields (p : GuildPlayer) :=
  (guild p, queue p, playback_history p, loop_mode p, current_track_url p,
   current_track_info p, start_time p, last_update p, pause_time p,
   total_paused_time p, is_paused p).

(** ** Choice of the audio stream ([play_track], lines 675-689, 784-792) *)

(** An entry of [info['formats']]; a key that is absent or holds [None]
    is [None]. *)
Record Format : Type := {
  format_id : string;
  format_url : option string;
  acodec : option string;
  vcodec : option string;
  abr : option Q;
  asr : option Z;
  filesize : option Z
}.

(** What the resolver returned, as far as the stream is concerned. *)
Record StreamInfo : Type := {
  info_url : option string;            (* [info['url']], if the key is there *)
  info_formats : option (list Format)  (* [info['formats']], if the key is there *)
}.

Inductive StreamError : Type :=
| KeyError      (* the chosen format has no ['url'] *)
| ValueError.   (* "No suitable audio format found" *)

(** [f.get('acodec') != 'none' and f.get('vcodec') == 'none'] *)
Definition audio_only (f : Format) : bool :=
  negb (bool_decide (acodec f = Some "none")) &&
  bool_decide (vcodec f = Some "none").

Definition audio_formats (formats : list Format) : list Format :=
  filter (fun f => audio_only f = true) formats.

(** The sort key
    [(x.get('abr', 0) or 0, x.get('asr', 0) or 0, x.get('filesize', 0) or 0)]. *)
Definition quality (f : Format) : Q * Z * Z :=
  (default 0%Q (abr f), default 0 (asr f), default 0 (filesize f)).

(** Python's order on such tuples: the first unequal component decides. *)
Definition quality_compare (a b : Q * Z * Z) : comparison :=
  match a, b with
  | (a1, a2, a3), (b1, b2, b3) =>
      match (a1 ?= b1)%Q with
      | Eq => match a2 ?= b2 with
              | Eq => a3 ?= b3
              | c => c
              end
      | c => c
      end
  end.

(** [a] has the strictly greater key, so it sorts before [b] under
    [reverse=True]. *)
Definition better (a b : Format) : bool :=
  match quality_compare (quality a) (quality b) with
  | Gt => true
  | _ => false
  end.

(** [l.sort(key=..., reverse=True)]: the greatest key first, and formats
    of equal key in the order they had (the sort is stable). *)
Fixpoint insert_by_quality (x : Format) (l : list Format) : list Format :=
  match l with
  | [] => [x]
  | y :: r => if better y x then y :: insert_by_quality x r else x :: y :: r
  end.

Fixpoint sort_by_quality (l : list Format) : list Format :=
  match l with
  | [] => []
  | x :: r => insert_by_quality x (sort_by_quality r)
  end.

(** Lines 675-689 of [try_extract_without_cookies]: with audio-only
    formats on offer, the stream is the first of them after sorting. *)
Definition select_best_audio (info : StreamInfo) : StreamError + StreamInfo :=
  match info_formats info with
  | Some formats =>
      match sort_by_quality (audio_formats formats) with
      | best_format :: _ =>
          match format_url best_format with
          | Some u => inr {| info_url := Some u; info_formats := info_formats info |}
          | None => inl KeyError
          end
      | [] => inr info
      end
  | None => inr info
  end.

(** Lines 784-792 of [play_track]: an [info] without a stream takes the
    last audio-only format. *)
Definition stream_url (info : StreamInfo) : StreamError + string :=
  match info_url info with
  | Some u => inr u
  | None =>
      match last (audio_formats (default [] (info_formats info))) with
      | Some best_audio =>
          match format_url best_audio with
          | Some u => inr u
          | None => inl KeyError
          end
      | None => inl ValueError
      end
  end.

(** ** Cookies from the environment ([get_cookies_content], lines 19-82) *)

(** The process environment: [os.getenv name] is [env !! name]. *)
Abbreviation Env := (gmap string string).

(** [f'YOUTUBE_COOKIES_B64_{part_num}'] *)
Definition part_name (part_num : Z) : string :=
  "YOUTUBE_COOKIES_B64_" +:+ pretty part_num.

Definition legacy_name : string := "YOUTUBE_COOKIES_B64".

(** The truth value of what [os.getenv] returned: [None] and the empty
    string are false. *)
Definition truthy_env (v : option string) : bool :=
  match v with
  | Some s => negb (bool_decide (s = ""))
  | None => false
  end.

(** The [while True] loop of lines 26-36, from [part_num] on; it is cut
    after [fuel] rounds, and [None] says that it was. *)
Fixpoint cookie_parts (fuel : nat) (env : Env) (part_num : Z)
    : option (list string) :=
  match fuel with
  | O => None
  | S fuel =>
      let cookie_part := env !! part_name part_num in
      let cookie_part :=
        if truthy_env cookie_part then cookie_part
        else if part_num =? 1 then env !! legacy_name
        else cookie_part in
      match cookie_part with
      | Some v =>
          if truthy_env (Some v)
          then option_map (cons v) (cookie_parts fuel env (part_num + 1))
          else Some []
      | None => Some []
      end
  end.

(** [needle in hay] *)
Fixpoint is_prefix (needle hay : string) : bool :=
  match needle, hay with
  | EmptyString, _ => true
  | String a n, String b h => bool_decide (a = b) && is_prefix n h
  | String _ _, EmptyString => false
  end.

Fixpoint contains (needle hay : string) : bool :=
  is_prefix needle hay ||
  match hay with
  | EmptyString => false
  | String _ h => contains needle h
  end.

(** [''.join(cookie_parts)] *)
Definition join (parts : list string) : string :=
  foldr String.append "" parts.

(** [get_cookies_content]; [b64decode_utf8 s] is
    [base64.b64decode(s).decode('utf-8')], [None] when that raises.  The
    outer [None] is the loop cut short, the inner one the [None] the
    source returns. *)
Definition get_cookies_content (b64decode_utf8 : string -> option string)
    (fuel : nat) (env : Env) : option (option string) :=
  match cookie_parts fuel env 1 with
  | None => None
  | Some [] => Some None
  | Some parts =>
      Some
        match b64decode_utf8 (join parts) with
        | None => None
        | Some cookies_content =>
            if MessageHandler.is_blank cookies_content then None
            else if negb (contains "youtube.com" cookies_content) &&
                    negb (contains "www.youtube.com" cookies_content)
            then None
            else Some cookies_content
        end
  end.

(** ** Replies of the buttons ([MusicControls.handle_interaction],
       lines 266-288) *)

Module Interaction.

Inductive Exn : Type :=
| HTTPException (code : Z)   (* [discord.errors.HTTPException] and its subclasses *)
| OtherException.            (* anything else *)

Inductive Call : Type :=
| ResponseSend   (* [interaction.response.send_message] *)
| FollowupSend   (* [interaction.followup.send] *)
| ChannelSend.   (* [interaction.channel.send] *)

(** A call that was made, with the exception it ended in, if any. *)
Definition Trace := list (Call * option Exn).

(** "Interaction already acknowledged" *)
Definition already_acknowledged : Z := 40060.

(** The [try] block of lines 268-280.  [fails n] is what the platform
    answers to the call made after [n] others. *)
Definition first_attempt (is_done : bool) (fails : nat -> option Exn)
    : Trace * option Exn :=
  if negb is_done then ([(ResponseSend, fails 0%nat)], fails 0%nat)
  else
    match fails 0%nat with
    | Some (HTTPException code) =>
        if code =? already_acknowledged
        then ([(FollowupSend, fails 0%nat); (ChannelSend, fails 1%nat)],
              fails 1%nat)
        else ([(FollowupSend, fails 0%nat)], fails 0%nat)
    | _ => ([(FollowupSend, fails 0%nat)], fails 0%nat)
    end.

(** [handle_interaction]: the calls made, and the exception that reaches
    the caller. *)
Definition handle_interaction (is_done : bool) (fails : nat -> option Exn)
    : Trace * option Exn :=
  match first_attempt is_done fails with
  | (calls, Some (HTTPException code)) =>
      if code =? already_acknowledged
      then (calls ++ [(ChannelSend, fails (length calls))], None)
      else (calls, Some (HTTPException code))
  | r => r
  end.

(** The calls that delivered the response. *)
Definition delivered (t : Trace) : list Call :=
  omap (fun c => match snd c with None => Some (fst c) | Some _ => None end) t.

End Interaction.

(** ** Further examples *)



(** The replay session after one press of the loop button: loop mode 1. *)
Definition session_replay_track_loop : World :=
  apply_event (LoopButton 1) session_replay.

(** Three formats as a resolver lists them: a video, an audio-only
    format of 128 kbit/s, and an audio-only format of 48 kbit/s. *)
Definition video_format : Format := {|
  format_id := "18"; format_url := Some "https://cdn/18";
  acodec := Some "mp4a.40.2"; vcodec := Some "avc1.42001E";
  abr := Some (96 # 1)%Q; asr := Some 44100; filesize := None
|}.

Definition audio_128 : Format := {|
  format_id := "140"; format_url := Some "https://cdn/140";
  acodec := Some "mp4a.40.2"; vcodec := Some "none";
  abr := Some (128 # 1)%Q; asr := Some 44100; filesize := Some 3400000
|}.

Definition audio_48 : Format := {|
  format_id := "249"; format_url := Some "https://cdn/249";
  acodec := Some "opus"; vcodec := Some "none";
  abr := Some (48 # 1)%Q; asr := Some 48000; filesize := Some 1300000
|}.

Definition example_formats : list Format := [video_format; audio_128; audio_48].

Definition example_info : StreamInfo :=
  {| info_url := None; info_formats := Some example_formats |}.

(** An environment with parts 1 and 3 and the variable without a number,
    and the same without part 3. *)
Definition env_without_part_2 : Env :=
  {[ part_name 1 := "youtube.com one ";
     part_name 3 := "three";
     legacy_name := "legacy" ]}.

Definition env_part_1_only : Env :=
  {[ part_name 1 := "youtube.com one "; legacy_name := "legacy" ]}.

(** A decoder that returns the text it is given. *)
Definition undecoded (s : string) : option string := Some s.

(** * Properties *)

(** ** Clock *)

Section Clock.

Implicit Types (p : GuildPlayer) (now st : Z).












Lemma chronological_le calls : forall a b, chronological a calls b -> a <= b.
Proof.
  induction calls as [|[t c] rest IH]; intros a b; simpl; [tauto|].
  intros [H1 H2]. apply IH in H2. lia.
Qed.




End Clock.



(** ** What the operations do to the objects of the store

    [R] relates an object before and after; it is asked to hold whenever
    the loop mode and the history are untouched, and across the few places
    of the source that assign them. *)

Section Frame.

Variable R : GuildPlayer -> GuildPlayer -> Prop.

Hypothesis R_trans : forall p q r, R p q -> R q r -> R p r.
Hypothesis R_frame : forall p q,
  loop_mode q = loop_mode p -> playback_history q = playback_history p -> R p q.
Hypothesis R_record : forall u p, R p (record_history u p).
Hypothesis R_previous : forall p, R p (previous_requeue p).

Local Abbreviation ext := (extends R).

Lemma R_refl p : R p p.
Proof. apply R_frame; reflexivity. Qed.

Lemma obj_upd l l' f w :
  obj l' (upd l f w) = if decide (l = l') then f (obj l w) else obj l' w.
Proof.
  unfold obj, upd; simpl. destruct (decide (l = l')) as [->|Hne].
  - apply lookup_total_insert_eq.
  - apply lookup_total_insert_ne; assumption.
Qed.

Lemma obj_upd_same l f w : obj l (upd l f w) = f (obj l w).
Proof. rewrite obj_upd. destruct (decide (l = l)); congruence. Qed.

Lemma ext_refl w : store_ok w -> ext w w.
Proof. intros H. split; [exact H|]. split; [lia|]. intros l. apply R_refl. Qed.

Lemma ext_trans w0 w1 w2 : ext w0 w1 -> ext w1 w2 -> ext w0 w2.
Proof.
  intros (_ & N1 & H1) (S2 & N2 & H2). split; [exact S2|]. split; [lia|].
  intros l. eapply R_trans; [apply H1|apply H2].
Qed.

Lemma ext_upd l f w0 w :
  (l < next_loc w0)%nat -> (forall p, R p (f p)) ->
  ext w0 w -> ext w0 (upd l f w).
Proof.
  intros Hl Hf ([Hfree Hreg] & N & H). split; [split|split].
  - intros l' Hl'. simpl in *. rewrite lookup_insert_ne by lia. apply Hfree, Hl'.
  - exact Hreg.
  - exact N.
  - intros l'. rewrite obj_upd. destruct (decide (l = l')) as [->|_].
    + eapply R_trans; [apply H|apply Hf].
    + apply H.
Qed.

Lemma ext_set_voice v w0 w : ext w0 w -> ext w0 (set_voice v w).
Proof. intros (S & N & H). split; [exact S|]. split; [exact N|exact H]. Qed.

Lemma ext_voice_stop g w0 w : ext w0 w -> ext w0 (voice_stop g w).
Proof.
  intros H. unfold voice_stop. destruct (voice w !! g); [|exact H].
  apply ext_set_voice, H.
Qed.

Lemma ext_delete_message m d w0 w : ext w0 w -> ext w0 (delete_message m d w).
Proof.
  intros H. unfold delete_message. destruct m; [|exact H]. destruct d; exact H.
Qed.

Lemma ext_unregister g w0 w :
  ext w0 w -> ext w0 (set_players (delete g (players w)) w).
Proof.
  intros ([Hfree Hreg] & N & H). split; [split|split]; simpl; auto.
  intros g' l Hl. apply lookup_delete_Some in Hl as [_ Hl]. eapply Hreg, Hl.
Qed.

Lemma ext_clear_players w0 w : ext w0 w -> ext w0 (set_players ∅ w).
Proof.
  intros ([Hfree Hreg] & N & H). split; [split|split]; simpl; auto.
  intros g' l Hl. rewrite lookup_empty in Hl. discriminate.
Qed.

(** [get_player] hands out an allocated object and disturbs no other. *)
Lemma ext_get_player g w :
  store_ok w ->
  ext w (snd (get_player g w)) /\
  (fst (get_player g w) < next_loc (snd (get_player g w)))%nat /\
  players (snd (get_player g w)) !! g = Some (fst (get_player g w)).
Proof.
  intros [Hfree Hreg]. unfold get_player.
  destruct (players w !! g) as [l|] eqn:E; simpl.
  - split; [apply ext_refl; split; assumption|]. split; [eapply Hreg, E|exact E].
  - split; [|split; [lia|apply lookup_insert_eq]].
    split; [split|split]; simpl.
    + intros l Hl. rewrite lookup_insert_ne by lia. apply Hfree. lia.
    + intros g' l Hl. destruct (decide (g = g')) as [->|Hne].
      * rewrite lookup_insert_eq in Hl. injection Hl as <-. lia.
      * rewrite lookup_insert_ne in Hl by assumption. apply Hreg in Hl. lia.
    + lia.
    + intros l. unfold obj; simpl.
      destruct (decide (next_loc w = l)) as [<-|Hne].
      * rewrite lookup_total_insert_eq.
        rewrite lookup_total_alt, (Hfree (next_loc w)) by lia. simpl.
        apply R_frame; reflexivity.
      * rewrite lookup_total_insert_ne by assumption. apply R_refl.
Qed.

Lemma ext_next_loc w0 w l : ext w0 w -> (l < next_loc w0)%nat -> (l < next_loc w)%nat.
Proof. intros (_ & N & _) H. lia. Qed.

Lemma ext_store_ok w0 w : ext w0 w -> store_ok w.
Proof. intros (S & _). exact S. Qed.

Lemma R_pause now p : R p (pause now p).
Proof. apply R_frame; unfold pause; destruct (is_paused p); reflexivity. Qed.

Lemma R_resume now p : R p (resume now p).
Proof.
  apply R_frame; unfold resume; destruct (is_paused p), (pause_time p); reflexivity.
Qed.

Lemma R_get_elapsed_time now vc sp p : R p (snd (get_elapsed_time now vc sp p)).
Proof.
  apply R_frame; unfold get_elapsed_time; destruct (start_time p);
    try reflexivity; destruct (is_playing vc && (0 <? source_position sp));
    reflexivity.
Qed.

Lemma ext_play_resolved g l url a w0 w :
  (l < next_loc w0)%nat -> ext w0 w ->
  ext w0 (snd (play_resolved g l url a w)).
Proof.
  intros Hl H. unfold play_resolved.
  destruct (resolved a) as [info|]; [|exact H].
  destruct (start_ok a).
  - destruct (panel a); simpl.
    + apply ext_upd; [exact Hl|intros; apply R_frame; reflexivity|].
      apply ext_set_voice, ext_upd; [exact Hl| |exact H].
      intros p. eapply R_trans; [|apply R_record]. apply R_frame; reflexivity.
    + apply ext_set_voice, ext_upd; [exact Hl| |exact H].
      intros p. eapply R_trans; [|apply R_record]. apply R_frame; reflexivity.
  - simpl. apply ext_upd; [exact Hl|intros; apply R_frame; reflexivity|].
    apply ext_upd; [exact Hl| |exact H].
    intros p. eapply R_trans; [|apply R_record]. apply R_frame; reflexivity.
Qed.

Lemma ext_play_track g url now a w0 w :
  ext w0 w -> ext w0 (snd (play_track g url now a w)).
Proof.
  intros H. unfold play_track.
  destruct (ext_get_player g w (ext_store_ok _ _ H)) as (E & Hl & _).
  destruct (get_player g w) as [l w1]. simpl in E, Hl.
  assert (E1 : ext w1 w1) by (apply ext_refl, (ext_store_ok _ _ E)).
  eapply ext_trans; [exact H|]. eapply ext_trans; [exact E|].
  set (w2 := upd l _ (if is_playing _ then _ else _)).
  assert (E2 : ext w1 w2).
  { unfold w2. apply ext_upd; [exact Hl|intros; apply R_frame; reflexivity|].
    assert (E3 : ext w1 (upd l (set_player_message None)
                     (delete_message (player_message (obj l w1)) (old_panel a) w1))).
    { apply ext_upd; [exact Hl|intros; apply R_frame; reflexivity|].
      apply ext_delete_message, E1. }
    destruct (is_playing (voice w1 !! g)); [apply ext_voice_stop|]; exact E3. }
  destruct (voice w1 !! g).
  - apply ext_play_resolved; assumption.
  - destruct (negb (author_in_voice a)); [exact E2|].
    destruct (connect_ok a); [|exact E2].
    destruct (voice_state_ok a); [|apply ext_set_voice, E2].
    apply ext_play_resolved; [exact Hl|]. apply ext_set_voice, E2.
Qed.

Lemma ext_play_next g now a w0 w :
  ext w0 w -> ext w0 (snd (play_next g now a w)).
Proof.
  intros H. unfold play_next.
  destruct (ext_get_player g w (ext_store_ok _ _ H)) as (E & Hl & _).
  destruct (get_player g w) as [l w1]. simpl in E, Hl.
  eapply ext_trans; [exact H|]. eapply ext_trans; [exact E|].
  assert (E2 : ext w1 (upd l finish_current w1)).
  { apply ext_upd; [exact Hl|intros; apply R_frame; reflexivity|].
    apply ext_refl, (ext_store_ok _ _ E). }
  destruct (queue (obj l (upd l finish_current w1))) as [|next_url rest];
    [exact E2|].
  destruct (play_track g next_url now a _) as [r w3] eqn:F.
  change w3 with (snd (r, w3)). rewrite <- F.
  apply ext_play_track, ext_upd; [exact Hl|intros; apply R_frame; reflexivity|].
  exact E2.
Qed.

Lemma ext_previous_button g w0 w :
  ext w0 w -> ext w0 (snd (previous_button g w)).
Proof.
  intros H. unfold previous_button.
  destruct (ext_get_player g w (ext_store_ok _ _ H)) as (E & Hl & _).
  destruct (get_player g w) as [l w1]. simpl in E, Hl.
  eapply ext_trans; [exact H|]. eapply ext_trans; [exact E|].
  assert (E1 : ext w1 w1) by (apply ext_refl, (ext_store_ok _ _ E)).
  destruct (1 <? length (playback_history (obj l w1)))%nat; [|exact E1].
  assert (E2 : ext w1 (upd l previous_requeue w1))
    by (apply ext_upd; [exact Hl|apply R_previous|exact E1]).
  destruct (voice (upd l previous_requeue w1) !! g); simpl;
    [apply ext_voice_stop|]; exact E2.
Qed.

Lemma ext_play_pause_button g now a w0 w :
  ext w0 w -> ext w0 (snd (play_pause_button g now a w)).
Proof.
  intros H. unfold play_pause_button.
  destruct (ext_get_player g w (ext_store_ok _ _ H)) as (E & Hl & _).
  destruct (get_player g w) as [l w1]. simpl in E, Hl.
  eapply ext_trans; [exact H|]. eapply ext_trans; [exact E|].
  assert (E1 : ext w1 w1) by (apply ext_refl, (ext_store_ok _ _ E)).
  destruct (voice w1 !! g) as [[| |]|]; simpl; try exact E1.
  - destruct (queue (obj l w1)) as [|next_url rest]; simpl; [exact E1|].
    apply ext_play_track, ext_upd;
      [exact Hl|intros; apply R_frame; reflexivity|exact E1].
  - apply ext_upd; [exact Hl|apply R_pause|]. apply ext_set_voice, E1.
  - apply ext_upd; [exact Hl|apply R_resume|]. apply ext_set_voice, E1.
Qed.

Lemma ext_skip_button g w0 w : ext w0 w -> ext w0 (snd (skip_button g w)).
Proof.
  intros H. unfold skip_button.
  destruct (voice w !! g) as [[| |]|] eqn:E; simpl; try exact H.
  apply ext_voice_stop, H.
Qed.

Lemma ext_stop_button g d w0 w : ext w0 w -> ext w0 (snd (stop_button g d w)).
Proof.
  intros H. unfold stop_button.
  destruct (ext_get_player g w (ext_store_ok _ _ H)) as (E & Hl & _).
  destruct (get_player g w) as [l w1]. simpl in E, Hl.
  eapply ext_trans; [exact H|]. eapply ext_trans; [exact E|].
  assert (E1 : ext w1 w1) by (apply ext_refl, (ext_store_ok _ _ E)).
  destruct (voice w1 !! g); [|exact E1].
  set (w2 := set_voice _ _).
  assert (E2 : ext w1 w2).
  { unfold w2. apply ext_set_voice, ext_voice_stop, ext_upd;
      [exact Hl|intros; apply R_frame; reflexivity|exact E1]. }
  destruct (player_message (obj l w2)); destruct d;
    cbv beta iota zeta delta [snd];
    try exact E2; apply ext_unregister, ext_delete_message, E2.
Qed.

Lemma ext_play_command g now uv found a w0 w :
  ext w0 w -> ext w0 (snd (play_command g now uv found a w)).
Proof.
  intros H. unfold play_command. destruct (negb uv); [exact H|].
  destruct (ext_get_player g w (ext_store_ok _ _ H)) as (E & Hl & _).
  destruct (get_player g w) as [l w1]. simpl in E, Hl.
  eapply ext_trans; [exact H|]. eapply ext_trans; [exact E|].
  assert (E1 : ext w1 w1) by (apply ext_refl, (ext_store_ok _ _ E)).
  destruct found as [url|]; [|exact E1].
  destruct (negb (is_playing (voice w1 !! g))).
  - destruct (play_track g url now a w1) as [r w3] eqn:F.
    change w3 with (snd (r, w3)). rewrite <- F. apply ext_play_track, E1.
  - simpl. apply ext_upd; [exact Hl|intros; apply R_frame; reflexivity|exact E1].
Qed.

Lemma ext_inactivity_timeout g l w0 w :
  ext w0 w -> ext w0 (inactivity_timeout g l w).
Proof.
  intros H. unfold inactivity_timeout. destruct (voice w !! g); [|exact H].
  destruct (_ && _); [|exact H].
  apply (ext_unregister g w0 (set_voice (delete g (voice w)) w)).
  apply ext_set_voice, H.
Qed.

Lemma ext_update_progress_iteration g l now sp rs rc w0 w :
  (l < next_loc w0)%nat -> ext w0 w ->
  ext w0 (update_progress_iteration g l now sp rs rc w).
Proof.
  intros Hl H. unfold update_progress_iteration.
  destruct (_ && _); [|exact H].
  set (w1 := upd l _ w).
  assert (E1 : ext w0 w1)
    by (apply ext_upd; [exact Hl|intros; apply R_get_elapsed_time|exact H]).
  set (w2 := match sp with Some _ => _ | None => w1 end).
  assert (E2 : ext w0 w2).
  { unfold w2. destruct sp; [|exact E1]. destruct rs; [|exact E1].
    apply ext_upd; [exact Hl|intros; apply R_frame; reflexivity|exact E1]. }
  destruct (player_message (obj l w2)); [|exact E2].
  destruct rc; [|exact E2].
  apply ext_upd; [exact Hl|intros; apply R_frame; reflexivity|exact E2].
Qed.

Lemma ext_on_voice_state_update g d rc w0 w :
  ext w0 w -> ext w0 (on_voice_state_update g d rc w).
Proof.
  intros H. unfold on_voice_state_update.
  destruct (players w !! g) as [l|]; [|exact H].
  destruct (player_message (obj l w)); destruct d; try exact H;
    destruct rc; cbv beta iota zeta;
    first [ apply ext_set_voice, ext_delete_message, H
          | apply ext_unregister, ext_delete_message, H ].
Qed.

Lemma ext_on_shutdown w0 w : ext w0 w -> ext w0 (on_shutdown w).
Proof. intros H. apply ext_clear_players, ext_set_voice, H. Qed.

(** Every event but the loop button. *)
Lemma ext_apply_event e w :
  (forall g, e <> LoopButton g) ->
  store_ok w -> enabled e w -> ext w (apply_event e w).
Proof.
  intros Hne S En. pose proof (ext_refl w S) as E.
  destruct e; simpl in *.
  - apply ext_play_command, E.
  - apply ext_play_next, E.
  - apply ext_inactivity_timeout, E.
  - apply ext_previous_button, E.
  - apply ext_play_pause_button, E.
  - apply ext_skip_button, E.
  - exfalso. eapply Hne. reflexivity.
  - apply ext_stop_button, E.
  - apply ext_update_progress_iteration; [exact En|exact E].
  - apply ext_on_voice_state_update, E.
  - apply ext_on_shutdown, E.
  - apply ext_set_voice, E.
Qed.

Hypothesis R_loop : forall p, R p (set_loop_mode ((loop_mode p + 1) `mod` 3) p).

Lemma ext_loop_button g w0 w : ext w0 w -> ext w0 (snd (loop_button g w)).
Proof.
  intros H. unfold loop_button.
  destruct (ext_get_player g w (ext_store_ok _ _ H)) as (E & Hl & _).
  destruct (get_player g w) as [l w1]. simpl in E, Hl.
  eapply ext_trans; [exact H|]. eapply ext_trans; [exact E|]. simpl.
  apply ext_upd; [exact Hl|apply R_loop|].
  apply ext_refl, (ext_store_ok _ _ E).
Qed.

Lemma ext_any_event e w : store_ok w -> enabled e w -> ext w (apply_event e w).
Proof.
  intros S En. destruct e; try (apply ext_apply_event; [discriminate|exact S|exact En]).
  apply ext_loop_button, ext_refl, S.
Qed.

End Frame.

Lemma store_ok_init : store_ok World_init.
Proof.
  split; simpl.
  - intros l _. apply lookup_empty.
  - intros g l H. rewrite lookup_empty in H. discriminate.
Qed.

Lemma reachable_store_ok w : reachable w -> store_ok w.
Proof.
  induction 1 as [|e w Hr IH En]; [apply store_ok_init|].
  assert (E : extends (fun _ _ => True) w (apply_event e w))
    by (apply ext_any_event; auto).
  apply E.
Qed.

(** ** play_track and play_next on a registered session *)

Lemma obj_set_voice l v w : obj l (set_voice v w) = obj l w.
Proof. reflexivity. Qed.

Lemma obj_set_players l m w : obj l (set_players m w) = obj l w.
Proof. reflexivity. Qed.

Lemma obj_voice_stop l g w : obj l (voice_stop g w) = obj l w.
Proof. unfold voice_stop. destruct (voice w !! g); reflexivity. Qed.

Lemma obj_delete_message l m d w : obj l (delete_message m d w) = obj l w.
Proof. destruct m, d; reflexivity. Qed.

Lemma players_voice_stop g w : players (voice_stop g w) = players w.
Proof. unfold voice_stop. destruct (voice w !! g); reflexivity. Qed.

Lemma players_delete_message m d w : players (delete_message m d w) = players w.
Proof. destruct m, d; reflexivity. Qed.

Lemma get_player_registered g l w :
  players w !! g = Some l -> get_player g w = (l, w).
Proof. intros H. unfold get_player. rewrite H. reflexivity. Qed.

Ltac obj_simpl :=
  simpl;
  repeat (first
    [ rewrite obj_upd_same
    | rewrite obj_set_voice
    | rewrite obj_set_players
    | rewrite obj_voice_stop
    | rewrite obj_delete_message
    | rewrite players_voice_stop
    | rewrite players_delete_message ]; simpl).

Lemma record_history_fields url p :
  queue (record_history url p) = queue p /\
  loop_mode (record_history url p) = loop_mode p /\
  current_track_url (record_history url p) = current_track_url p /\
  start_time (record_history url p) = start_time p.
Proof. unfold record_history. destruct (mem_url url (playback_history p)); auto. Qed.

Lemma record_history_history url p :
  playback_history (record_history url p) =
    if mem_url url (playback_history p) then playback_history p
    else playback_history p ++ [url].
Proof. unfold record_history. destruct (mem_url url (playback_history p)); auto. Qed.

(** What one [play_track] call leaves in the session's object. *)
Lemma play_track_player g l url now a w r w' :
  players w !! g = Some l ->
  play_track g url now a w = (r, w') ->
  players w' = players w /\
  queue (obj l w') = queue (obj l w) /\
  loop_mode (obj l w') = loop_mode (obj l w) /\
  current_track_url (obj l w') =
    (if decide (r = StartFailed) then None else Some url) /\
  playback_history (obj l w') =
    (if past_resolution r
     then playback_history (record_history url (obj l w))
     else playback_history (obj l w)) /\
  start_time (obj l w') = Some now.
Proof.
  intros Hreg. unfold play_track. rewrite (get_player_registered g l w Hreg).
  assert (Hres : forall w1 r w',
    play_resolved g l url a w1 = (r, w') ->
    players w' = players w1 /\
    queue (obj l w') = queue (obj l w1) /\
    loop_mode (obj l w') = loop_mode (obj l w1) /\
    (current_track_url (obj l w1) = Some url ->
     current_track_url (obj l w') =
       (if decide (r = StartFailed) then None else Some url)) /\
    playback_history (obj l w') =
      (if past_resolution r
       then playback_history (record_history url (obj l w1))
       else playback_history (obj l w1)) /\
    start_time (obj l w') = start_time (obj l w1)).
  { intros w1 r1 w1'. unfold play_resolved.
    destruct (resolved a) as [info|].
    - destruct (start_ok a); [destruct (panel a)|]; intros [= <- <-];
        obj_simpl;
        destruct (record_history_fields url
                    (set_current_track_info (Some info) (obj l w1)))
          as (Q1 & Q2 & Q3 & Q4);
        rewrite ?Q1, ?Q2, ?Q3, ?Q4, ?record_history_history; simpl; auto 10.
    - intros [= <- <-]. simpl. auto 10. }
  set (w2 := upd l _ (if is_playing _ then _ else _)).
  assert (F : players w2 = players w /\ queue (obj l w2) = queue (obj l w) /\
              loop_mode (obj l w2) = loop_mode (obj l w) /\
              current_track_url (obj l w2) = Some url /\
              playback_history (obj l w2) = playback_history (obj l w) /\
              start_time (obj l w2) = Some now).
  { unfold w2. destruct (is_playing (voice w !! g)); obj_simpl; auto 10. }
  destruct F as (F1 & F2 & F3 & F4 & F5 & F6).
  assert (G : forall v r w',
    play_resolved g l url a (set_voice v w2) = (r, w') \/
    play_resolved g l url a w2 = (r, w') ->
    players w' = players w /\
    queue (obj l w') = queue (obj l w) /\
    loop_mode (obj l w') = loop_mode (obj l w) /\
    current_track_url (obj l w') =
      (if decide (r = StartFailed) then None else Some url) /\
    playback_history (obj l w') =
      (if past_resolution r
       then playback_history (record_history url (obj l w))
       else playback_history (obj l w)) /\
    start_time (obj l w') = Some now).
  { intros v r1 w1' [E|E]; apply Hres in E; rewrite ?obj_set_voice in E;
      destruct E as (E1 & E2 & E3 & E4 & E5 & E6);
      rewrite E1, E2, E3, (E4 F4), E5, E6, !record_history_history, F5;
      auto 10. }
  destruct (voice w !! g).
  - intros E. apply (G ∅). right. exact E.
  - destruct (negb (author_in_voice a)).
    + intros [= <- <-]. simpl. auto 10.
    + destruct (connect_ok a); [destruct (voice_state_ok a)|].
      * intros E. eapply G. left. exact E.
      * intros [= <- <-]. simpl. auto 10.
      * intros [= <- <-]. simpl. auto 10.
Qed.

Lemma loop_requeue_cases p :
  loop_requeue p =
    match current_track_url p with
    | Some c =>
        if truthy c then
          if loop_mode p =? 1 then c :: queue p
          else if loop_mode p =? 2 then queue p ++ [c]
          else queue p
        else queue p
    | None => queue p
    end.
Proof. reflexivity. Qed.

(** What one [play_next] call leaves in the session's object. *)
Lemma play_next_player g l now a w r w' :
  players w !! g = Some l ->
  play_next g now a w = (r, w') ->
  players w' = players w /\
  loop_mode (obj l w') = loop_mode (obj l w) /\
  match loop_requeue (obj l w) with
  | [] =>
      r = None /\ queue (obj l w') = [] /\
      current_track_url (obj l w') = None /\
      playback_history (obj l w') = playback_history (obj l w)
  | next_url :: rest =>
      exists r0, r = Some r0 /\
        queue (obj l w') = rest /\
        current_track_url (obj l w') =
          (if decide (r0 = StartFailed) then None else Some next_url) /\
        start_time (obj l w') = Some now /\
        playback_history (obj l w') =
          (if past_resolution r0
           then playback_history (record_history next_url (obj l w))
           else playback_history (obj l w))
  end.
Proof.
  intros Hreg. unfold play_next. rewrite (get_player_registered g l w Hreg).
  rewrite obj_upd_same.
  change (queue (finish_current (obj l w))) with (loop_requeue (obj l w)).
  destruct (loop_requeue (obj l w)) as [|next_url rest] eqn:Q.
  - intros [= <- <-]. obj_simpl. auto 10.
  - destruct (play_track g next_url now a _) as [r0 w0] eqn:F.
    intros [= <- <-].
    apply play_track_player with (l := l) in F; [|exact Hreg].
    revert F. obj_simpl. rewrite !record_history_history. simpl.
    intros (F1 & F2 & F3 & F4 & F5 & F6).
    split; [exact F1|]. split; [exact F3|]. exists r0. auto 10.
Qed.

(** C4.  [play_next] after a track was playing, on a registered session:
    the queue is first extended by the finished track at its head (loop
    mode 1), at its tail (loop mode 2) or not at all; then, if that queue
    is empty, the session is left with no current track; otherwise its head
    is removed, the rest stays in order, and [play_track] is started on the
    head (which becomes the current track, with the clock restarted, unless
    the audio source fails to start). *)
Theorem play_next_loop_handling (g : Z) (l : nat) (c : string) (now : Z)
    (a : PlayAnswers) (w w' : World) (r : option PlayResult) :
  players w !! g = Some l ->
  current_track_url (obj l w) = Some c ->
  truthy c = true ->
  play_next g now a w = (r, w') ->
  let q := queue (obj l w) in
  let requeued :=
    if loop_mode (obj l w) =? 1 then c :: q
    else if loop_mode (obj l w) =? 2 then q ++ [c]
    else q in
  loop_requeue (obj l w) = requeued /\
  match requeued with
  | [] => r = None /\ queue (obj l w') = [] /\ current_track_url (obj l w') = None
  | next_url :: rest =>
      exists r0, r = Some r0 /\
        queue (obj l w') = rest /\
        current_track_url (obj l w') =
          (if decide (r0 = StartFailed) then None else Some next_url) /\
        start_time (obj l w') = Some now
  end.
Proof.
  intros Hreg Hc Ht Hn q requeued.
  assert (Q : loop_requeue (obj l w) = requeued).
  { rewrite loop_requeue_cases, Hc, Ht. reflexivity. }
  split; [exact Q|].
  destruct (play_next_player g l now a w r w' Hreg Hn) as (_ & _ & H).
  rewrite Q in H. destruct requeued as [|next_url rest].
  - tauto.
  - destruct H as (r0 & H1 & H2 & H3 & H4 & _). exists r0. auto.
Qed.


Lemma get_player_registers g w :
  players (snd (get_player g w)) !! g = Some (fst (get_player g w)).
Proof.
  unfold get_player. destruct (players w !! g) eqn:E; simpl.
  - exact E.
  - apply lookup_insert_eq.
Qed.

Lemma get_player_voice g w : voice (snd (get_player g w)) = voice w.
Proof. unfold get_player. destruct (players w !! g); reflexivity. Qed.

(** C3 (as the code has it).  A play request that found a track, from a
    user in a voice channel: when the guild's voice client is playing the
    reference is appended to the queue tail and the current track, the
    clock and the voice client stay as they are; in every other case (no
    voice client, or one that is paused or has nothing running, which
    covers the idle session but also a loading or paused one) [play_track]
    is started on the reference, which leaves the queue alone and makes the
    reference the current track with a restarted clock. *)
Theorem play_command_dispatch (g now : Z) (url : string) (a : PlayAnswers)
    (w w' : World) (rep : Reply) :
  play_command g now true (Some url) a w = (rep, w') ->
  let l := fst (get_player g w) in
  let w1 := snd (get_player g w) in
  (is_playing (voice w !! g) = true ->
     rep = AddedToQueue /\
     queue (obj l w') = queue (obj l w1) ++ [url] /\
     current_track_url (obj l w') = current_track_url (obj l w1) /\
     start_time (obj l w') = start_time (obj l w1) /\
     voice w' = voice w) /\
  (is_playing (voice w !! g) = false ->
     exists r, rep = PlayTrackReply r /\
       queue (obj l w') = queue (obj l w1) /\
       current_track_url (obj l w') =
         (if decide (r = StartFailed) then None else Some url) /\
       start_time (obj l w') = Some now).
Proof.
  unfold play_command. simpl.
  pose proof (get_player_registers g w) as Hreg.
  pose proof (get_player_voice g w) as Hv.
  destruct (get_player g w) as [l w1]. simpl in *. rewrite Hv.
  destruct (is_playing (voice w !! g)) eqn:P; simpl.
  - intros [= <- <-]. split; [|discriminate]. intros _.
    rewrite obj_upd_same. simpl. auto.
  - destruct (play_track g url now a w1) as [r w2] eqn:F.
    intros [= <- <-]. split; [discriminate|]. intros _.
    destruct (play_track_player g l url now a w1 r w2 Hreg F)
      as (_ & Q & _ & C & _ & S).
    exists r. auto.
Qed.

(** C6.  On a session whose history has fewer than two entries
    [previous_button] changes nothing (queue, history, current track and
    everything else in the world stay as they were) and answers "No
    previous track in history.", a failure reply. *)
Theorem previous_button_short_history (g : Z) (l : nat) (w : World) :
  players w !! g = Some l ->
  (length (playback_history (obj l w)) < 2)%nat ->
  previous_button g w = (NoPreviousTrack, w) /\
  is_failure (fst (previous_button g w)) = true.
Proof.
  intros Hreg Hlen.
  assert (E : previous_button g w = (NoPreviousTrack, w)).
  { unfold previous_button. rewrite (get_player_registered g l w Hreg).
    destruct (1 <? length (playback_history (obj l w)))%nat eqn:T;
      [|reflexivity].
    apply Nat.ltb_lt in T. lia. }
  rewrite E. split; reflexivity.
Qed.


(** ** Invariants of the reachable worlds *)

Lemma NoDup_pop_last (h : list string) : NoDup h -> NoDup (pop_last h).
Proof.
  unfold pop_last. destruct h as [|x h'] using rev_ind; [trivial|].
  rewrite removelast_last. intros H. apply NoDup_app in H. tauto.
Qed.

Lemma record_history_NoDup url p :
  NoDup (playback_history p) -> NoDup (playback_history (record_history url p)).
Proof.
  intros H. rewrite record_history_history. unfold mem_url.
  destruct (bool_decide (url ∈ playback_history p)) eqn:E; [exact H|].
  apply bool_decide_eq_false in E. apply NoDup_app. split; [exact H|].
  split; [|apply NoDup_singleton].
  intros x Hx Hin. apply list_elem_of_singleton in Hin. subst. contradiction.
Qed.

Lemma previous_requeue_history p :
  playback_history (previous_requeue p) = playback_history p \/
  playback_history (previous_requeue p) = pop_last (pop_last (playback_history p)).
Proof.
  unfold previous_requeue.
  destruct (last (pop_last (playback_history p))); [right|left]; reflexivity.
Qed.

Lemma previous_requeue_loop_mode p :
  loop_mode (previous_requeue p) = loop_mode p.
Proof.
  unfold previous_requeue.
  destruct (last (pop_last (playback_history p))); reflexivity.
Qed.

Lemma player_ok_init g : player_ok (GuildPlayer_init g).
Proof. split; [left; reflexivity|apply NoDup_nil_2]. Qed.

Lemma obj_World_init l : obj l World_init = GuildPlayer_init 0.
Proof. unfold obj. simpl. rewrite lookup_total_empty. reflexivity. Qed.

(** Every object of a reachable world is in order. *)
Lemma reachable_player_ok w : reachable w -> forall l, player_ok (obj l w).
Proof.
  intros Hr. induction Hr as [|e w Hr IH En]; intros l.
  - rewrite obj_World_init. apply player_ok_init.
  - assert (E : extends (fun p q => player_ok p -> player_ok q) w (apply_event e w)).
    { apply ext_any_event; [| | | | |apply reachable_store_ok, Hr|exact En].
      - intros p q r0 H1 H2 Hp. auto.
      - intros p q Lq Hq [L H]. unfold player_ok. rewrite Lq, Hq. split; assumption.
      - intros u p [L H]. split.
        + destruct (record_history_fields u p) as (_ & -> & _). exact L.
        + apply record_history_NoDup, H.
      - intros p [L H]. split.
        + rewrite previous_requeue_loop_mode. exact L.
        + destruct (previous_requeue_history p) as [-> | ->]; [exact H|].
          apply NoDup_pop_last, NoDup_pop_last, H.
      - intros p [L H]. split; [simpl|exact H].
        pose proof (Z.mod_pos_bound (loop_mode p + 1) 3). lia. }
    apply E, IH.
Qed.

(** Apart from the loop button no event assigns a loop mode. *)
Lemma loop_mode_frame e w l :
  store_ok w -> enabled e w -> (forall g, e <> LoopButton g) ->
  loop_mode (obj l (apply_event e w)) = loop_mode (obj l w).
Proof.
  intros S En Hne.
  assert (E : extends (fun p q => loop_mode q = loop_mode p) w (apply_event e w)).
  { apply ext_apply_event; [| | | |exact Hne|exact S|exact En].
    - intros p q r0 H1 H2. congruence.
    - intros p q Lq _. exact Lq.
    - intros u p. destruct (record_history_fields u p) as (_ & -> & _). reflexivity.
    - intros p. apply previous_requeue_loop_mode. }
  apply E.
Qed.

Lemma get_player_loop_mode g w l :
  store_ok w -> loop_mode (obj l (snd (get_player g w))) = loop_mode (obj l w).
Proof.
  intros S.
  destruct (ext_get_player (fun p q => loop_mode q = loop_mode p)) with (g := g) (w := w)
    as (E & _); [intros p q Lq _; exact Lq|exact S|].
  apply E.
Qed.

(** C10.  In a reachable world every player object has loop mode 0, 1 or
    2: a new object starts at 0, the loop button replaces the mode [m] of
    its guild's object by [(m + 1) mod 3], and no other event changes the
    loop mode of any object. *)
Theorem loop_mode_stays_in_range (w : World) (l : nat) :
  reachable w ->
  (loop_mode (obj l w) = 0 \/ loop_mode (obj l w) = 1 \/ loop_mode (obj l w) = 2) /\
  (forall g, loop_mode (GuildPlayer_init g) = 0) /\
  (forall e, enabled e w -> (forall g, e <> LoopButton g) ->
     loop_mode (obj l (apply_event e w)) = loop_mode (obj l w)) /\
  (forall g,
     loop_mode (obj l (apply_event (LoopButton g) w)) =
       if decide (fst (get_player g w) = l)
       then (loop_mode (obj l w) + 1) `mod` 3
       else loop_mode (obj l w)).
Proof.
  intros Hr. pose proof (reachable_store_ok w Hr) as S.
  split; [apply (reachable_player_ok w Hr l)|].
  split; [reflexivity|].
  split; [intros e En Hne; apply loop_mode_frame; assumption|].
  intros g. simpl. unfold loop_button.
  pose proof (get_player_loop_mode g w l S) as G.
  destruct (get_player g w) as [l0 w1]. simpl in *.
  rewrite obj_upd. destruct (decide (l0 = l)) as [->|_]; simpl; rewrite G; reflexivity.
Qed.

(** C9.  In a reachable world no history holds a reference twice.
    [play_track] writes the history only past the resolution, and then
    appends the reference exactly when the history does not hold it
    already; so a successful replay of a reference the history holds leaves
    the history as it was while that reference becomes the current track
    (the last entry of the history is then whatever it was before). *)
Theorem history_never_repeats (w : World) (l : nat) :
  reachable w ->
  NoDup (playback_history (obj l w)) /\
  (forall g url now a r w',
     players w !! g = Some l ->
     play_track g url now a w = (r, w') ->
     (url ∈ playback_history (obj l w) ->
        playback_history (obj l w') = playback_history (obj l w) /\
        (r = Started -> current_track_url (obj l w') = Some url)) /\
     (url ∉ playback_history (obj l w) ->
        playback_history (obj l w') =
          if past_resolution r then playback_history (obj l w) ++ [url]
          else playback_history (obj l w))).
Proof.
  intros Hr. split; [apply (reachable_player_ok w Hr l)|].
  intros g url now a r w' Hreg Hp.
  destruct (play_track_player g l url now a w r w' Hreg Hp)
    as (_ & _ & _ & C & H & _).
  rewrite record_history_history in H. unfold mem_url in H. split.
  - intros Hin. rewrite bool_decide_eq_true_2 in H by exact Hin.
    split; [destruct (past_resolution r); exact H|].
    intros ->. exact C.
  - intros Hout. rewrite bool_decide_eq_false_2 in H by exact Hout. exact H.
Qed.

(** ** The claims at concrete sessions *)

(** The replay session is a reachable world. *)
Lemma session_replay_reachable : reachable session_replay.
Proof. repeat (apply reachable_step; [|exact I]). apply reachable_init. Qed.





(** C3 fails as stated: a play request for A on a paused session that
    holds C does not enqueue A; it replaces C as the current track. *)
Lemma play_command_preempts_when_paused :
  let w' := snd (play_command 1 (seconds 9) true (Some "A") all_fine
                   session_C_paused) in
  current_track_url (obj 0 session_C_paused) = Some "C" /\
  voice session_C_paused !! 1 = Some VoicePaused /\
  current_track_url (obj 0 w') = Some "A" /\
  queue (obj 0 w') = [].
Proof. vm_compute. repeat split. Qed.

(** C3 at the playing session: a request for D is queued behind A, B
    and C stays current. *)
Lemma play_command_dispatch_witness :
  queue (obj 0 (snd (play_command 1 (seconds 9) true (Some "D") all_fine
                       session_C_AB))) = ["A"; "B"; "D"] /\
  current_track_url
    (obj 0 (snd (play_command 1 (seconds 9) true (Some "D") all_fine
                   session_C_AB))) = Some "C".
Proof.
  destruct (play_command_dispatch 1 (seconds 9) "D" all_fine session_C_AB
              (snd (play_command 1 (seconds 9) true (Some "D") all_fine session_C_AB))
              (fst (play_command 1 (seconds 9) true (Some "D") all_fine session_C_AB)))
    as [H _]; [vm_compute; reflexivity|].
  destruct H as (_ & Q & C & _); [vm_compute; reflexivity|].
  split; [exact Q|exact C].
Defined.

(** C4 at the skipped session, loop mode 0: A is taken off the queue. *)
Lemma play_next_loop_handling_witness :
  queue (obj 0 (snd (play_next 1 (seconds 9) all_fine session_C_skipped))) = ["B"].
Proof.
  assert (H1 : players session_C_skipped !! 1 = Some 0%nat)
    by (vm_compute; reflexivity).
  assert (H2 : current_track_url (obj 0 session_C_skipped) = Some "C")
    by (vm_compute; reflexivity).
  assert (H3 : play_next 1 (seconds 9) all_fine session_C_skipped =
               (fst (play_next 1 (seconds 9) all_fine session_C_skipped),
                snd (play_next 1 (seconds 9) all_fine session_C_skipped)))
    by (vm_compute; reflexivity).
  pose proof (play_next_loop_handling 1 0 "C" (seconds 9) all_fine
                session_C_skipped _ _ H1 H2 eq_refl H3) as H.
  vm_compute in H. vm_compute.
  destruct H as (_ & r0 & _ & Q & _). exact Q.
Defined.



(** C6 at the playing session, whose history holds C only. *)
Lemma previous_button_short_history_witness :
  previous_button 1 session_C_AB = (NoPreviousTrack, session_C_AB).
Proof.
  apply (previous_button_short_history 1 0 session_C_AB).
  - vm_compute. reflexivity.
  - vm_compute. lia.
Defined.



(** C9 at the replay session: after A, B, A the history is A, B and A
    is current. *)
Lemma history_never_repeats_witness :
  NoDup (playback_history (obj 0 session_replay)) /\
  playback_history (obj 0 session_replay) = ["A"; "B"] /\
  current_track_url (obj 0 session_replay) = Some "A".
Proof.
  split; [|vm_compute; split; reflexivity].
  apply (history_never_repeats session_replay 0 session_replay_reachable).
Defined.

(** C10 at the replay session: the loop button takes mode 0 to 1. *)
Lemma loop_mode_stays_in_range_witness :
  loop_mode (obj 0 (apply_event (LoopButton 1) session_replay)) = 1.
Proof.
  destruct (loop_mode_stays_in_range session_replay 0 session_replay_reachable)
    as (_ & _ & _ & H).
  rewrite (H 1). vm_compute. reflexivity.
Defined.

(** ** MessageHandler.send *)

Module MessageHandlerFacts.
Import MessageHandler.

Section WithPlatform.

Variable pf : Platform.









Lemma call_eq c s :
  call pf c s =
    match raises pf (length (calls s)) with
    | Some e => (Raises e, {| handler := handler s; calls := calls s ++ [c] |})
    | None => (Returns (length (calls s)),
               {| handler := handler s; calls := calls s ++ [c] |})
    end.
Proof. reflexivity. Qed.




End WithPlatform.


End MessageHandlerFacts.

(** ** Further properties of the session operations *)

Lemma pop_last_snoc (h : list string) (x : string) : pop_last (h ++ [x]) = h.
Proof. apply removelast_last. Qed.

Lemma previous_requeue_two h prev last_played p :
  playback_history p = h ++ [prev; last_played] ->
  previous_requeue p =
    set_queue
      (prev :: match current_track_url p with
               | Some c => if truthy c then c :: queue p else queue p
               | None => queue p
               end)
      (set_playback_history h p).
Proof.
  intros H. unfold previous_requeue. rewrite H.
  change (h ++ [prev; last_played]) with (h ++ [prev] ++ [last_played]).
  rewrite app_assoc, pop_last_snoc, last_snoc, pop_last_snoc. reflexivity.
Qed.

Lemma previous_button_player g l w h prev last_played c :
  players w !! g = Some l ->
  playback_history (obj l w) = h ++ [prev; last_played] ->
  current_track_url (obj l w) = Some c ->
  truthy c = true ->
  let w' := snd (previous_button g w) in
  queue (obj l w') = prev :: c :: queue (obj l w) /\
  playback_history (obj l w') = h /\
  current_track_url (obj l w') = Some c /\
  players w' = players w /\
  loop_mode (obj l w') = loop_mode (obj l w) /\
  match voice w !! g with
  | Some _ =>
      fst (previous_button g w) = PlayingPrevious /\
      voice w' !! g = Some VoiceStopped
  | None =>
      fst (previous_button g w) = NotConnectedToVoice /\ voice w' = voice w
  end.
Proof.
  intros Hreg Hh Hc Ht. unfold previous_button.
  rewrite (get_player_registered g l w Hreg).
  assert (L : (1 <? length (playback_history (obj l w)))%nat = true).
  { apply Nat.ltb_lt. rewrite Hh, length_app. simpl. lia. }
  rewrite L. cbv zeta.
  change (voice (upd l previous_requeue w) !! g) with (voice w !! g).
  destruct (voice w !! g) as [v|] eqn:V; obj_simpl;
    rewrite (previous_requeue_two h prev last_played (obj l w) Hh), Hc, Ht;
    simpl; repeat (split; [first [reflexivity|exact Hc]|]).
  - unfold voice_stop. simpl. rewrite V. simpl. apply lookup_insert_eq.
  - reflexivity.
Qed.

(** [previous_button] with at least two history entries: the two newest
    entries leave the history, and the queue gets the older of them at its
    head followed by the current track.  This happens before the voice
    client is looked at: without a voice client the handler answers "Not
    connected to voice channel." and the queue and history stay changed. *)
Theorem previous_button_requeues (g : Z) (l : nat) (w : World)
    (h : list string) (prev last_played c : string) :
  players w !! g = Some l ->
  playback_history (obj l w) = h ++ [prev; last_played] ->
  current_track_url (obj l w) = Some c ->
  truthy c = true ->
  let w' := snd (previous_button g w) in
  queue (obj l w') = prev :: c :: queue (obj l w) /\
  playback_history (obj l w') = h /\
  current_track_url (obj l w') = Some c /\
  match voice w !! g with
  | Some _ =>
      fst (previous_button g w) = PlayingPrevious /\
      voice w' !! g = Some VoiceStopped
  | None =>
      fst (previous_button g w) = NotConnectedToVoice /\ voice w' = voice w
  end.
Proof.
  intros Hreg Hh Hc Ht.
  destruct (previous_button_player g l w h prev last_played c Hreg Hh Hc Ht)
    as (Q & H & C & _ & _ & V).
  auto.
Qed.

Lemma previous_button_requeues_witness :
  queue (obj 0 (snd (previous_button 1 session_replay))) = ["A"; "A"] /\
  playback_history (obj 0 (snd (previous_button 1 session_replay))) = [].
Proof.
  assert (H1 : players session_replay !! 1 = Some 0%nat)
    by (vm_compute; reflexivity).
  assert (H2 : playback_history (obj 0 session_replay) = [] ++ ["A"; "B"])
    by (vm_compute; reflexivity).
  assert (H3 : current_track_url (obj 0 session_replay) = Some "A")
    by (vm_compute; reflexivity).
  pose proof (previous_button_requeues 1 0 session_replay [] "A" "B" "A"
                H1 H2 H3 eq_refl) as H.
  vm_compute in H. vm_compute.
  destruct H as (Q & P & _). split; assumption.
Defined.


(** After [previous_button] and the completion callback its forced stop
    triggers, with loop mode 0 and a successful load: the older track is
    current again, the track that was playing is next in the queue, and
    the history ends with the older track. *)
Theorem previous_then_complete_plays_previous (g : Z) (l : nat) (w w2 : World)
    (h : list string) (prev last_played c : string) (now : Z) (a : PlayAnswers) :
  players w !! g = Some l ->
  playback_history (obj l w) = h ++ [prev; last_played] ->
  prev ∉ h ->
  current_track_url (obj l w) = Some c ->
  truthy c = true ->
  loop_mode (obj l w) = 0 ->
  play_next g now a (snd (previous_button g w)) = (Some Started, w2) ->
  current_track_url (obj l w2) = Some prev /\
  queue (obj l w2) = c :: queue (obj l w) /\
  playback_history (obj l w2) = h ++ [prev].
Proof.
  intros Hreg Hh Hn Hc Ht Hl Hp.
  destruct (previous_button_player g l w h prev last_played c Hreg Hh Hc Ht)
    as (Q & H & C & P & L & _).
  assert (Hreg1 : players (snd (previous_button g w)) !! g = Some l)
    by (rewrite P; exact Hreg).
  destruct (play_next_player g l now a _ _ w2 Hreg1 Hp) as (_ & _ & N).
  rewrite loop_requeue_cases, C, Ht, L, Hl, Q in N. simpl in N.
  destruct N as (r0 & [= <-] & Q2 & C2 & _ & H2). simpl in C2, H2.
  rewrite record_history_history, H in H2. unfold mem_url in H2.
  rewrite bool_decide_eq_false_2 in H2 by exact Hn. auto.
Qed.

Lemma previous_then_complete_plays_previous_witness :
  current_track_url
    (obj 0 (snd (play_next 1 (seconds 500) all_fine
                   (snd (previous_button 1 session_replay))))) = Some "A".
Proof.
  assert (H1 : players session_replay !! 1 = Some 0%nat)
    by (vm_compute; reflexivity).
  assert (H2 : playback_history (obj 0 session_replay) = [] ++ ["A"; "B"])
    by (vm_compute; reflexivity).
  assert (H3 : current_track_url (obj 0 session_replay) = Some "A")
    by (vm_compute; reflexivity).
  assert (H4 : loop_mode (obj 0 session_replay) = 0)
    by (vm_compute; reflexivity).
  assert (H5 : play_next 1 (seconds 500) all_fine
                 (snd (previous_button 1 session_replay)) =
               (Some Started,
                snd (play_next 1 (seconds 500) all_fine
                       (snd (previous_button 1 session_replay)))))
    by (vm_compute; reflexivity).
  pose proof (previous_then_complete_plays_previous 1 0 session_replay _
                [] "A" "B" "A" (seconds 500) all_fine
                H1 H2 (not_elem_of_nil "A") H3 eq_refl H4 H5) as H.
  vm_compute in H. vm_compute.
  destruct H as (C & _). exact C.
Defined.


(** The same in loop mode 1: the completion callback puts the current
    track back at the head of the queue before it dequeues, so the track
    that was playing is loaded again, and the older track waits at the
    head of the queue. *)
Theorem previous_in_track_loop_replays_current (g : Z) (l : nat) (w w2 : World)
    (h : list string) (prev last_played c : string) (now : Z) (a : PlayAnswers) :
  players w !! g = Some l ->
  playback_history (obj l w) = h ++ [prev; last_played] ->
  current_track_url (obj l w) = Some c ->
  truthy c = true ->
  loop_mode (obj l w) = 1 ->
  play_next g now a (snd (previous_button g w)) = (Some Started, w2) ->
  current_track_url (obj l w2) = Some c /\
  queue (obj l w2) = prev :: c :: queue (obj l w).
Proof.
  intros Hreg Hh Hc Ht Hl Hp.
  destruct (previous_button_player g l w h prev last_played c Hreg Hh Hc Ht)
    as (Q & H & C & P & L & _).
  assert (Hreg1 : players (snd (previous_button g w)) !! g = Some l)
    by (rewrite P; exact Hreg).
  destruct (play_next_player g l now a _ _ w2 Hreg1 Hp) as (_ & _ & N).
  rewrite loop_requeue_cases, C, Ht, L, Hl, Q in N. simpl in N.
  destruct N as (r0 & [= <-] & Q2 & C2 & _). simpl in C2. auto.
Qed.

Lemma previous_in_track_loop_replays_current_witness :
  queue
    (obj 0 (snd (play_next 1 (seconds 500) all_fine
                   (snd (previous_button 1 session_replay_track_loop))))) =
  ["A"; "A"].
Proof.
  assert (H1 : players session_replay_track_loop !! 1 = Some 0%nat)
    by (vm_compute; reflexivity).
  assert (H2 : playback_history (obj 0 session_replay_track_loop) =
               [] ++ ["A"; "B"])
    by (vm_compute; reflexivity).
  assert (H3 : current_track_url (obj 0 session_replay_track_loop) = Some "A")
    by (vm_compute; reflexivity).
  assert (H4 : loop_mode (obj 0 session_replay_track_loop) = 1)
    by (vm_compute; reflexivity).
  assert (H5 : play_next 1 (seconds 500) all_fine
                 (snd (previous_button 1 session_replay_track_loop)) =
               (Some Started,
                snd (play_next 1 (seconds 500) all_fine
                       (snd (previous_button 1 session_replay_track_loop)))))
    by (vm_compute; reflexivity).
  pose proof (previous_in_track_loop_replays_current 1 0
                session_replay_track_loop _ [] "A" "B" "A" (seconds 500)
                all_fine H1 H2 H3 eq_refl H4 H5) as H.
  vm_compute in H. vm_compute.
  destruct H as (_ & Q). exact Q.
Defined.


(** Pressing play/pause at [t1] on a playing session and again at [t2]:
    the first press pauses the voice client and freezes the time-based
    value at [t1]; the second resumes, and from then on the time-based value
    is what it would have been without the pause, less [t2 - t1]. *)
Theorem play_pause_twice_excludes_pause (g : Z) (l : nat) (w : World)
    (t1 t2 st : Z) (a1 a2 : PlayAnswers) :
  players w !! g = Some l ->
  voice w !! g = Some VoicePlaying ->
  is_paused (obj l w) = false ->
  let w1 := snd (play_pause_button g t1 a1 w) in
  let w2 := snd (play_pause_button g t2 a2 w1) in
  fst (play_pause_button g t1 a1 w) = Paused /\
  voice w1 !! g = Some VoicePaused /\
  (forall now, time_based now st (obj l w1) = time_based t1 st (obj l w)) /\
  fst (play_pause_button g t2 a2 w1) = Resumed /\
  voice w2 !! g = Some VoicePlaying /\
  is_paused (obj l w2) = false /\
  total_paused_time (obj l w2) = total_paused_time (obj l w) + (t2 - t1) /\
  (forall now, time_based now st (obj l w2) =
               time_based now st (obj l w) - (t2 - t1)).
Proof.
  intros Hreg Hv Hp.
  assert (E1 : play_pause_button g t1 a1 w =
               (Paused, upd l (pause t1)
                          (set_voice (<[g := VoicePaused]> (voice w)) w))).
  { unfold play_pause_button. rewrite (get_player_registered g l w Hreg), Hv.
    reflexivity. }
  rewrite E1. cbn [fst snd]. set (w1 := upd l (pause t1) _).
  assert (V1 : voice w1 !! g = Some VoicePaused) by apply lookup_insert_eq.
  assert (O1 : obj l w1 = set_pause (Some t1) true (obj l w)).
  { unfold w1. rewrite obj_upd_same, obj_set_voice. unfold pause.
    rewrite Hp. reflexivity. }
  assert (E2 : play_pause_button g t2 a2 w1 =
               (Resumed, upd l (resume t2)
                           (set_voice (<[g := VoicePlaying]> (voice w1)) w1))).
  { unfold play_pause_button.
    rewrite (get_player_registered g l w1 Hreg), V1. reflexivity. }
  rewrite E2. cbn [fst snd]. rewrite obj_upd_same, obj_set_voice, O1.
  split; [reflexivity|]. split; [exact V1|].
  split; [intros now; unfold time_based; simpl; rewrite Hp; reflexivity|].
  split; [reflexivity|]. split; [apply lookup_insert_eq|].
  split; [reflexivity|]. split; [reflexivity|].
  intros now. unfold time_based. simpl. rewrite Hp. lia.
Qed.

Lemma play_pause_twice_excludes_pause_witness :
  total_paused_time
    (obj 0 (snd (play_pause_button 1 (seconds 8) all_fine
                   (snd (play_pause_button 1 (seconds 5) all_fine
                           session_C_AB))))) = seconds 3.
Proof.
  assert (H1 : players session_C_AB !! 1 = Some 0%nat)
    by (vm_compute; reflexivity).
  assert (H2 : voice session_C_AB !! 1 = Some VoicePlaying)
    by (vm_compute; reflexivity).
  assert (H3 : is_paused (obj 0 session_C_AB) = false)
    by (vm_compute; reflexivity).
  pose proof (play_pause_twice_excludes_pause 1 0 session_C_AB (seconds 5)
                (seconds 8) 0 all_fine all_fine H1 H2 H3) as H.
  cbv zeta in H. destruct H as (_ & _ & _ & _ & _ & _ & T & _).
  vm_compute in T. vm_compute. exact T.
Defined.


(** A second [pause] keeps the first pause time, and [resume] on a clock
    that is not paused changes nothing; so repeated presses cannot stretch
    or shrink the paused time. *)
Theorem pause_resume_idempotent (t1 t2 : Z) (p : GuildPlayer) :
  pause t2 (pause t1 p) = pause t1 p /\
  resume t2 (resume t1 p) = resume t1 p /\
  (is_paused p = false -> resume t1 p = p).
Proof.
  unfold pause, resume. split; [|split].
  - destruct (is_paused p) eqn:E; [rewrite E|]; reflexivity.
  - destruct (is_paused p) eqn:E; [destruct (pause_time p) eqn:F|].
    + reflexivity.
    + rewrite E, F. reflexivity.
    + rewrite E. reflexivity.
  - intros ->. reflexivity.
Qed.









(** Skipping a playing session only stops the voice client; the track
    that follows is decided by the completion callback.  With a
    successful load, in loop mode 0 the head of the queue becomes current;
    in loop mode 2 it does too and the skipped track goes to the tail; in
    loop mode 1 the skipped track itself is loaded again and the queue is
    as it was. *)
Theorem skip_then_complete (g : Z) (l : nat) (w w2 : World) (c : string)
    (now : Z) (a : PlayAnswers) :
  players w !! g = Some l ->
  voice w !! g = Some VoicePlaying ->
  current_track_url (obj l w) = Some c ->
  truthy c = true ->
  play_next g now a (snd (skip_button g w)) = (Some Started, w2) ->
  fst (skip_button g w) = Skipped /\
  obj l (snd (skip_button g w)) = obj l w /\
  voice (snd (skip_button g w)) !! g = Some VoiceStopped /\
  (loop_mode (obj l w) = 0 -> forall next rest,
     queue (obj l w) = next :: rest ->
     current_track_url (obj l w2) = Some next /\ queue (obj l w2) = rest) /\
  (loop_mode (obj l w) = 1 ->
     current_track_url (obj l w2) = Some c /\
     queue (obj l w2) = queue (obj l w)) /\
  (loop_mode (obj l w) = 2 -> forall next rest,
     queue (obj l w) = next :: rest ->
     current_track_url (obj l w2) = Some next /\
     queue (obj l w2) = rest ++ [c]).
Proof.
  intros Hreg Hv Hc Ht Hp. unfold skip_button in *. rewrite Hv in *.
  cbn [fst snd] in *.
  assert (Hreg1 : players (voice_stop g w) !! g = Some l)
    by (rewrite players_voice_stop; exact Hreg).
  destruct (play_next_player g l now a _ _ w2 Hreg1 Hp) as (_ & _ & N).
  rewrite obj_voice_stop in N. rewrite loop_requeue_cases, Hc, Ht in N.
  split; [reflexivity|]. split; [apply obj_voice_stop|]. split.
  { unfold voice_stop. rewrite Hv. simpl. rewrite lookup_insert_eq. reflexivity. }
  split; [|split].
  - intros L next rest Q. rewrite L, Q in N. simpl in N.
    destruct N as (r0 & [= <-] & Q2 & C2 & _). simpl in C2. auto.
  - intros L. rewrite L in N. simpl in N.
    destruct N as (r0 & [= <-] & Q2 & C2 & _). simpl in C2. auto.
  - intros L next rest Q. rewrite L, Q in N. simpl in N.
    destruct N as (r0 & [= <-] & Q2 & C2 & _). simpl in C2. auto.
Qed.

Lemma skip_then_complete_witness :
  current_track_url
    (obj 0 (snd (play_next 1 (seconds 9) all_fine
                   (snd (skip_button 1 session_C_AB))))) = Some "A".
Proof.
  assert (H1 : players session_C_AB !! 1 = Some 0%nat)
    by (vm_compute; reflexivity).
  assert (H2 : voice session_C_AB !! 1 = Some VoicePlaying)
    by (vm_compute; reflexivity).
  assert (H3 : current_track_url (obj 0 session_C_AB) = Some "C")
    by (vm_compute; reflexivity).
  assert (H5 : play_next 1 (seconds 9) all_fine
                 (snd (skip_button 1 session_C_AB)) =
               (Some Started,
                snd (play_next 1 (seconds 9) all_fine
                       (snd (skip_button 1 session_C_AB)))))
    by (vm_compute; reflexivity).
  pose proof (skip_then_complete 1 0 session_C_AB _ "C" (seconds 9) all_fine
                H1 H2 H3 eq_refl H5) as H.
  destruct H as (_ & _ & _ & L0 & _).
  assert (H4 : loop_mode (obj 0 session_C_AB) = 0) by (vm_compute; reflexivity).
  assert (H6 : queue (obj 0 session_C_AB) = ["A"; "B"])
    by (vm_compute; reflexivity).
  destruct (L0 H4 "A" ["B"] H6) as (C & _). exact C.
Defined.


(** ** The loop button and the progress task *)

Lemma loop_button_registered g l w :
  players w !! g = Some l ->
  loop_button g w =
    (LoopModeSet (loop_status ((loop_mode (obj l w) + 1) `mod` 3)),
     upd l (fun p => set_loop_mode ((loop_mode p + 1) `mod` 3) p) w).
Proof.
  intros H. unfold loop_button. rewrite (get_player_registered g l w H).
  cbv zeta. rewrite obj_upd_same. reflexivity.
Qed.

(** Three presses of the loop button on a session whose loop mode is one
    of the three codes announce the three modes in turn, each once, and
    leave the session as it was. *)
Theorem loop_button_cycle (g : Z) (l : nat) (w : World) :
  players w !! g = Some l ->
  0 <= loop_mode (obj l w) < 3 ->
  let m := loop_mode (obj l w) in
  let w1 := snd (loop_button g w) in
  let w2 := snd (loop_button g w1) in
  let w3 := snd (loop_button g w2) in
  fst (loop_button g w) = LoopModeSet (loop_status ((m + 1) `mod` 3)) /\
  fst (loop_button g w1) = LoopModeSet (loop_status ((m + 2) `mod` 3)) /\
  fst (loop_button g w2) = LoopModeSet (loop_status m) /\
  loop_mode (obj l w1) <> m /\ loop_mode (obj l w2) <> m /\
  loop_mode (obj l w2) <> loop_mode (obj l w1) /\
  obj l w3 = obj l w.
Proof.
  intros Hreg Hm. cbv zeta.
  rewrite (loop_button_registered g l w Hreg). cbn [fst snd].
  set (f := fun p => set_loop_mode ((loop_mode p + 1) `mod` 3) p).
  assert (R1 : players (upd l f w) !! g = Some l) by exact Hreg.
  rewrite (loop_button_registered g l _ R1). cbn [fst snd]. fold f.
  assert (R2 : players (upd l f (upd l f w)) !! g = Some l) by exact Hreg.
  rewrite (loop_button_registered g l _ R2). cbn [fst snd]. fold f.
  rewrite !obj_upd_same. unfold f. simpl.
  destruct (obj l w) as [? ? ? m ? ? ? ? ? ? ? ? ? ?]. simpl in *.
  assert (E : m = 0 \/ m = 1 \/ m = 2) by lia.
  destruct E as [-> | [-> | ->]]; vm_compute; repeat split; discriminate.
Qed.

Lemma loop_button_cycle_witness :
  fst (loop_button 1 session_replay) = LoopModeSet "Track" /\
  obj 0 (snd (loop_button 1 (snd (loop_button 1 (snd (loop_button 1
           session_replay)))))) = obj 0 session_replay.
Proof.
  assert (H1 : players session_replay !! 1 = Some 0%nat)
    by (vm_compute; reflexivity).
  assert (H2 : 0 <= loop_mode (obj 0 session_replay) < 3)
    by (vm_compute; split; [discriminate|reflexivity]).
  pose proof (loop_button_cycle 1 0 session_replay H1 H2) as H.
  cbv zeta in H. destruct H as (F & _ & _ & _ & _ & _ & O).
  split; [|exact O]. rewrite F. vm_compute. reflexivity.
Defined.

Lemma session_fields_get_elapsed_time now vc sp p :
  session_fields (snd (get_elapsed_time now vc sp p)) = session_fields p.
Proof.
  unfold get_elapsed_time. destruct (start_time p); [|reflexivity].
  destruct (is_playing vc && (0 <? source_position sp)); reflexivity.
Qed.

(** One round of the progress task changes nothing but the position
    sample and the panel handle of the object it holds: the registry, the
    voice clients, every other object, and the queue, history, loop mode,
    current track and pause state of its own object are as they were.  It
    does nothing at all once the current track is unset or the voice
    client is not playing. *)
Theorem update_progress_iteration_frame (g : Z) (l : nat) (now : Z)
    (src_pos : option Z) (stuck : bool) (recreated : option Message)
    (w : World) :
  let w' := update_progress_iteration g l now src_pos stuck recreated w in
  players w' = players w /\ voice w' = voice w /\ deleted w' = deleted w /\
  (forall l', l' <> l -> obj l' w' = obj l' w) /\
  session_fields (obj l w') = session_fields (obj l w) /\
  (truthy_opt (current_track_url (obj l w)) && is_playing (voice w !! g) = false ->
   w' = w).
Proof.
  cbv zeta. unfold update_progress_iteration.
  destruct (truthy_opt (current_track_url (obj l w)) && is_playing (voice w !! g));
    [|repeat split; reflexivity].
  set (w1 := upd l _ w).
  set (w2 := match src_pos with Some _ => _ | None => w1 end).
  assert (F1 : players w1 = players w /\ voice w1 = voice w /\
               deleted w1 = deleted w /\
               (forall l', l' <> l -> obj l' w1 = obj l' w) /\
               session_fields (obj l w1) = session_fields (obj l w)).
  { unfold w1. repeat split.
    - intros l' Hl. rewrite obj_upd. destruct (decide (l = l')); congruence.
    - rewrite obj_upd_same. apply session_fields_get_elapsed_time. }
  assert (F2 : players w2 = players w /\ voice w2 = voice w /\
               deleted w2 = deleted w /\
               (forall l', l' <> l -> obj l' w2 = obj l' w) /\
               session_fields (obj l w2) = session_fields (obj l w)).
  { unfold w2. destruct src_pos as [x|]; [|exact F1].
    destruct stuck; [|exact F1].
    destruct F1 as (P & V & D & O & S). repeat split; try assumption.
    - intros l' Hl. rewrite obj_upd. destruct (decide (l = l')); [congruence|].
      apply O, Hl.
    - rewrite obj_upd_same. exact S. }
  destruct F2 as (P & V & D & O & S).
  destruct (player_message (obj l w2)) as [m|];
    [destruct recreated as [m'|]|];
    repeat split; try assumption; try discriminate.
  - intros l' Hl. rewrite obj_upd. destruct (decide (l = l')); [congruence|].
    apply O, Hl.
  - rewrite obj_upd_same. exact S.
Qed.

(** ** The progress bar and the time format *)







Lemma pad2_length (n : Z) : 0 <= n < 100 -> String.length (pad2 n) = 2%nat.
Proof.
  intros H.
  assert (A : forallb (fun k => (String.length (pad2 (Z.of_nat k)) =? 2)%nat)
                (seq 0 100) = true) by (vm_compute; reflexivity).
  rewrite forallb_forall in A.
  specialize (A (Z.to_nat n)). rewrite Z2Nat.id in A by lia.
  apply Nat.eqb_eq, A, in_seq. lia.
Qed.

Lemma string_length_app (s1 s2 : string) :
  String.length (s1 +:+ s2) = (String.length s1 + String.length s2)%nat.
Proof. induction s1 as [|c s1 IH]; simpl; [reflexivity|]. rewrite IH. reflexivity. Qed.

(** [format_time] of a non-negative time: below one hour the text is the
    minutes and the seconds, two digits each, five characters in all; from
    one hour on it is hours, minutes and seconds, eight characters as long
    as the hours stay below 100.  The seconds field, and the minutes field
    of the long form, are always below 60. *)
Theorem format_time_shape (t : Z) :
  0 <= t ->
  let s := t `div` 1000000 in
  (s < 3600 ->
     format_time t = pad2 (s `div` 60) +:+ ":" +:+ pad2 (s `mod` 60) /\
     0 <= (s `div` 60) < 60 /\ 0 <= (s `mod` 60) < 60 /\
     String.length (format_time t) = 5%nat) /\
  (3600 <= s ->
     format_time t =
       pad2 (s `div` 3600) +:+ ":" +:+ pad2 ((s `mod` 3600) `div` 60) +:+ ":" +:+
       pad2 (s `mod` 60) /\
     0 <= ((s `mod` 3600) `div` 60) < 60 /\ 0 <= (s `mod` 60) < 60 /\
     (s < 360000 -> String.length (format_time t) = 8%nat)).
Proof.
  intros Ht s. unfold format_time.
  rewrite Z.quot_div_nonneg by lia. fold s.
  assert (Hs : 0 <= s) by (apply Z.div_pos; lia).
  pose proof (Z.mod_pos_bound s 60 ltac:(lia)) as M60.
  pose proof (Z.mod_pos_bound s 3600 ltac:(lia)) as M3600.
  split; intros Hlt.
  - assert (L : (s <? 3600) = true) by (apply Z.ltb_lt; exact Hlt). rewrite L.
    assert (D : 0 <= (s `div` 60) < 60).
    { split; [apply Z.div_pos; lia|apply Z.div_lt_upper_bound; lia]. }
    split; [reflexivity|]. split; [exact D|]. split; [exact M60|].
    rewrite !string_length_app, !pad2_length by lia. reflexivity.
  - assert (L : (s <? 3600) = false) by (apply Z.ltb_ge; exact Hlt). rewrite L.
    assert (D : 0 <= ((s `mod` 3600) `div` 60) < 60).
    { split; [apply Z.div_pos; lia|apply Z.div_lt_upper_bound; lia]. }
    split; [reflexivity|]. split; [exact D|]. split; [exact M60|].
    intros Hh.
    assert (0 <= (s `div` 3600) < 100).
    { split; [apply Z.div_pos; lia|apply Z.div_lt_upper_bound; lia]. }
    rewrite !string_length_app, !pad2_length by lia. reflexivity.
Qed.

Lemma format_time_shape_witness :
  format_time (seconds 3725) = "01:02:05" /\
  String.length (format_time (seconds 3725)) = 8%nat.
Proof.
  assert (H0 : 0 <= seconds 3725) by (vm_compute; discriminate).
  destruct (format_time_shape (seconds 3725) H0) as (_ & L).
  destruct L as (E & _ & _ & N).
  - vm_compute. discriminate.
  - split.
    + rewrite E. vm_compute. reflexivity.
    + apply N. vm_compute. reflexivity.
Defined.


(** ** The audio stream that is chosen *)

Lemma quality_compare_refl a : quality_compare a a = Eq.
Proof.
  destruct a as [[a1 a2] a3]. simpl.
  rewrite (proj1 (Qeq_alt a1 a1) (Qeq_refl a1)), !Z.compare_refl. reflexivity.
Qed.

Lemma quality_compare_asym a b :
  quality_compare a b = Gt -> quality_compare b a <> Gt.
Proof.
  destruct a as [[a1 a2] a3], b as [[b1 b2] b3]. simpl.
  destruct (Qcompare_spec a1 b1), (Qcompare_spec b1 a1);
    try congruence; try (intros; exfalso; lra);
    destruct (Z.compare_spec a2 b2), (Z.compare_spec b2 a2);
    try congruence; try (intros; exfalso; lia);
    destruct (Z.compare_spec a3 b3), (Z.compare_spec b3 a3);
    try congruence; intros; exfalso; lia.
Qed.

(** "Not greater" is transitive for the tuple order. *)
Lemma quality_not_gt_trans a b c :
  quality_compare a b <> Gt -> quality_compare b c <> Gt ->
  quality_compare a c <> Gt.
Proof.
  destruct a as [[a1 a2] a3], b as [[b1 b2] b3], c as [[c1 c2] c3]. simpl.
  destruct (Qcompare_spec a1 b1), (Qcompare_spec b1 c1), (Qcompare_spec a1 c1);
    try congruence; try (intros; exfalso; lra);
    destruct (Z.compare_spec a2 b2), (Z.compare_spec b2 c2),
      (Z.compare_spec a2 c2);
    try congruence; try (intros; exfalso; lia);
    destruct (Z.compare_spec a3 b3), (Z.compare_spec b3 c3),
      (Z.compare_spec a3 c3);
    try congruence; try (intros; exfalso; lia).
Qed.

Lemma better_irrefl a : better a a = false.
Proof. unfold better. rewrite quality_compare_refl. reflexivity. Qed.

Lemma better_asym a b : better a b = true -> better b a = false.
Proof.
  unfold better. intros H.
  pose proof (quality_compare_asym (quality a) (quality b)) as A.
  destruct (quality_compare (quality a) (quality b)); try discriminate.
  destruct (quality_compare (quality b) (quality a)); try reflexivity.
  exfalso. apply A; reflexivity.
Qed.

Lemma better_false_trans a b c :
  better a b = false -> better b c = false -> better a c = false.
Proof.
  unfold better. intros H1 H2.
  pose proof (quality_not_gt_trans (quality a) (quality b) (quality c)) as T.
  destruct (quality_compare (quality a) (quality b)); try discriminate;
    destruct (quality_compare (quality b) (quality c)); try discriminate;
    destruct (quality_compare (quality a) (quality c)); try reflexivity;
    exfalso; apply T; congruence.
Qed.

Lemma insert_by_quality_elem x y l :
  y ∈ insert_by_quality x l <-> y = x \/ y ∈ l.
Proof.
  induction l as [|z r IH]; simpl.
  - rewrite list_elem_of_singleton. rewrite elem_of_nil. tauto.
  - destruct (better z x); rewrite !elem_of_cons; [rewrite IH|]; tauto.
Qed.

Lemma sort_by_quality_elem y l : y ∈ sort_by_quality l <-> y ∈ l.
Proof.
  induction l as [|x r IH]; simpl; [reflexivity|].
  rewrite insert_by_quality_elem, IH, elem_of_cons. tauto.
Qed.

Lemma sort_by_quality_nil l : sort_by_quality l = [] -> l = [].
Proof.
  destruct l as [|y r]; [reflexivity|]. intros S.
  assert (H : y ∈ sort_by_quality (y :: r)) by (apply sort_by_quality_elem; left).
  rewrite S in H. inversion H.
Qed.

(** The head of the sorted list: nothing beats it, and it is the first of
    the list among the formats it does not beat. *)
Lemma sort_by_quality_head l b rest :
  sort_by_quality l = b :: rest ->
  (forall f, f ∈ l -> better f b = false) /\
  exists l1 l2, l = l1 ++ b :: l2 /\ forall f, f ∈ l1 -> better b f = true.
Proof.
  revert b rest. induction l as [|x r IH]; intros b rest; simpl; [discriminate|].
  destruct (sort_by_quality r) as [|b' s] eqn:S; simpl.
  - intros [= <- <-]. apply sort_by_quality_nil in S as ->. split.
    + intros f Hf. apply list_elem_of_singleton in Hf as ->. apply better_irrefl.
    + exists [], []. split; [reflexivity|]. intros f Hf. inversion Hf.
  - destruct (IH b' s eq_refl) as (Hmax & l1 & l2 & -> & Hfirst).
    destruct (better b' x) eqn:B.
    + intros [= <- <-]. split.
      * intros f Hf. apply elem_of_cons in Hf as [->|Hf]; [|apply Hmax, Hf].
        apply better_asym, B.
      * exists (x :: l1), l2. split; [reflexivity|].
        intros f Hf. apply elem_of_cons in Hf as [->|Hf]; [exact B|].
        apply Hfirst, Hf.
    + intros [= <- <-]. split.
      * intros f Hf. apply elem_of_cons in Hf as [->|Hf]; [apply better_irrefl|].
        apply better_false_trans with (b := b'); [apply Hmax, Hf|exact B].
      * exists [], (l1 ++ b' :: l2). split; [reflexivity|].
        intros f Hf. inversion Hf.
Qed.

Lemma audio_formats_elem f formats :
  f ∈ audio_formats formats <-> f ∈ formats /\ audio_only f = true.
Proof. unfold audio_formats. rewrite list_elem_of_filter. tauto. Qed.

(** When the resolver offers at least one audio-only format, the stream
    chosen by the extraction without cookies is that of an audio-only
    format whose key (bitrate, then sample rate, then file size, a missing
    value counting as 0) no other audio-only format exceeds, and among
    the formats of that key the one listed first.  A stream the resolver
    had set itself is overwritten, and only a missing url of the chosen
    format makes the selection fail. *)
Theorem select_best_audio_is_best (info : StreamInfo) (formats : list Format) :
  info_formats info = Some formats ->
  audio_formats formats <> [] ->
  exists best before after,
    audio_formats formats = before ++ best :: after /\
    best ∈ formats /\ audio_only best = true /\
    (forall f, f ∈ formats -> audio_only f = true -> better f best = false) /\
    (forall f, f ∈ before -> better best f = true) /\
    select_best_audio info =
      match format_url best with
      | Some u => inr {| info_url := Some u; info_formats := Some formats |}
      | None => inl KeyError
      end.
Proof.
  intros Hf Hne. unfold select_best_audio. rewrite Hf.
  destruct (sort_by_quality (audio_formats formats)) as [|best rest] eqn:S.
  - apply sort_by_quality_nil in S. contradiction.
  - destruct (sort_by_quality_head _ _ _ S) as (Hmax & l1 & l2 & E & Hfirst).
    exists best, l1, l2. split; [exact E|].
    assert (Hin : best ∈ audio_formats formats).
    { rewrite E. apply elem_of_app. right. left. }
    apply audio_formats_elem in Hin as [Hin Ha].
    split; [exact Hin|]. split; [exact Ha|]. split; [|split; [exact Hfirst|]].
    + intros f H1 H2. apply Hmax, audio_formats_elem. split; assumption.
    + reflexivity.
Qed.

Lemma select_best_audio_is_best_witness :
  select_best_audio example_info =
    inr {| info_url := Some "https://cdn/140";
           info_formats := Some example_formats |}.
Proof.
  assert (Hne : audio_formats example_formats <> [])
    by (vm_compute; discriminate).
  destruct (select_best_audio_is_best example_info example_formats eq_refl Hne)
    as (best & before & after & E & _ & _ & Hmax & _ & S).
  rewrite S.
  assert (Hb : best = audio_128).
  { assert (A : audio_formats example_formats = [audio_128; audio_48])
      by (vm_compute; reflexivity).
    rewrite A in E.
    destruct before as [|x [|y before]].
    - injection E as <- _. reflexivity.
    - injection E as <- <- _. exfalso.
      assert (B : better audio_128 audio_48 = false).
      { apply Hmax; [|vm_compute; reflexivity].
        right. left. }
      vm_compute in B. discriminate.
    - apply (f_equal length) in E. rewrite length_app in E. simpl in E. lia. }
  rewrite Hb. reflexivity.
Defined.


(** After the selection of the extraction without cookies has gone
    through, the later fallback to the last audio-only format is never
    taken: either a stream is set and is the one used, or there is no
    audio-only format at all and the fallback ends in the error
    "No suitable audio format found". *)
Theorem stream_url_after_selection (info info' : StreamInfo) :
  select_best_audio info = inr info' ->
  match info_url info' with
  | Some u => stream_url info' = inr u
  | None =>
      info' = info /\ audio_formats (default [] (info_formats info)) = [] /\
      stream_url info' = inl ValueError
  end.
Proof.
  unfold select_best_audio, stream_url.
  destruct (info_formats info) as [formats|] eqn:F.
  - destruct (sort_by_quality (audio_formats formats)) as [|best rest] eqn:S.
    + intros [= <-]. apply sort_by_quality_nil in S.
      destruct (info_url info); [reflexivity|].
      rewrite F. simpl. rewrite S. auto.
    + destruct (format_url best); [|discriminate]. intros [= <-]. reflexivity.
  - intros [= <-]. destruct (info_url info); [reflexivity|].
    rewrite F. simpl. auto.
Qed.

Lemma stream_url_after_selection_witness :
  stream_url {| info_url := Some "https://cdn/140";
                info_formats := Some example_formats |} =
    inr "https://cdn/140".
Proof.
  assert (H : select_best_audio example_info =
              inr {| info_url := Some "https://cdn/140";
                     info_formats := Some example_formats |})
    by (vm_compute; reflexivity).
  exact (stream_url_after_selection example_info _ H).
Defined.


(** Without a stream set by the resolver and without the selection (the
    extraction with cookies), the stream is that of the audio-only format
    listed last, whatever its quality; the error "No suitable audio format
    found" is raised exactly when no format is audio-only. *)
Theorem stream_url_takes_last_audio_format (info : StreamInfo)
    (formats : list Format) :
  info_url info = None ->
  info_formats info = Some formats ->
  (stream_url info = inl ValueError <->
     forall f, f ∈ formats -> audio_only f = false) /\
  forall before f after,
    formats = before ++ f :: after -> audio_only f = true ->
    (forall f', f' ∈ after -> audio_only f' = false) ->
    stream_url info =
      match format_url f with Some u => inr u | None => inl KeyError end.
Proof.
  intros Hu Hf. unfold stream_url. rewrite Hu, Hf. simpl. split.
  - destruct (last (audio_formats formats)) as [b|] eqn:L.
    + split.
      * destruct (format_url b); discriminate.
      * intros Hall. apply last_Some in L as [l' L].
        assert (Hb : b ∈ audio_formats formats).
        { rewrite L. apply elem_of_app. right. left. }
        apply audio_formats_elem in Hb as [Hb Ha].
        rewrite (Hall b Hb) in Ha. discriminate.
    + split; [|reflexivity]. intros _ f Hin.
      apply last_None in L.
      destruct (audio_only f) eqn:A; [|reflexivity].
      assert (Hb : f ∈ audio_formats formats)
        by (apply audio_formats_elem; split; assumption).
      rewrite L in Hb. inversion Hb.
  - intros before f after -> Ha Hafter.
    unfold audio_formats. rewrite filter_app, filter_cons_True by exact Ha.
    assert (E : filter (fun f0 => audio_only f0 = true) after = []).
    { clear -Hafter. induction after as [|y r IH]; [reflexivity|].
      rewrite filter_cons_False.
      - apply IH. intros f' H. apply Hafter. right. exact H.
      - rewrite (Hafter y) by left. discriminate. }
    rewrite E, last_snoc. reflexivity.
Qed.

Lemma stream_url_takes_last_audio_format_witness :
  stream_url example_info = inr "https://cdn/249".
Proof.
  destruct (stream_url_takes_last_audio_format example_info example_formats
              eq_refl eq_refl) as (_ & L).
  apply (L [video_format; audio_128] audio_48 []).
  - reflexivity.
  - vm_compute. reflexivity.
  - intros f' H. inversion H.
Defined.


(** ** Cookies from the environment *)

Lemma part_name_inj m n : part_name m = part_name n -> m = n.
Proof.
  unfold part_name. intros H. apply String.app_inj in H.
  apply pretty_Z_inj in H. exact H.
Qed.

Lemma part_name_not_legacy n : part_name n <> legacy_name.
Proof.
  unfold part_name, legacy_name. intros H.
  apply (f_equal String.length) in H. rewrite string_length_app in H.
  change (String.length "YOUTUBE_COOKIES_B64_") with 20%nat in H.
  change (String.length "YOUTUBE_COOKIES_B64") with 19%nat in H. lia.
Qed.

Lemma cookie_parts_S fuel env n :
  cookie_parts (S fuel) env n =
    let cookie_part := env !! part_name n in
    let cookie_part :=
      if truthy_env cookie_part then cookie_part
      else if n =? 1 then env !! legacy_name
      else cookie_part in
    match cookie_part with
    | Some v =>
        if truthy_env (Some v)
        then option_map (cons v) (cookie_parts fuel env (n + 1))
        else Some []
    | None => Some []
    end.
Proof. reflexivity. Qed.

(** A variable the loop does not read any more makes no difference. *)
Lemma cookie_parts_irrelevant fuel env env' n :
  (forall m, n <= m -> env' !! part_name m = env !! part_name m) ->
  (n <= 1 -> env' !! legacy_name = env !! legacy_name) ->
  cookie_parts fuel env' n = cookie_parts fuel env n.
Proof.
  revert n. induction fuel as [|fuel IH]; intros n Hp Hl; simpl; [reflexivity|].
  rewrite Hp by lia.
  destruct (Z.eqb_spec n 1) as [->|Hne].
  - rewrite Hl by lia. rewrite (IH (1 + 1)); [reflexivity| |lia].
    intros m Hm. apply Hp. lia.
  - rewrite (IH (n + 1)); [reflexivity| |intros; apply Hl; lia].
    intros m Hm. apply Hp. lia.
Qed.

Lemma truthy_env_Some v : truthy_env v = true -> exists s, v = Some s /\ s <> "".
Proof.
  destruct v as [s|]; simpl; [|discriminate]. intros H. exists s.
  split; [reflexivity|]. apply negb_true_iff, bool_decide_eq_false in H. exact H.
Qed.

(** Each round of the loop either stops or reads a variable it has not
    read before, so in a finite environment it stops. *)
Lemma cookie_parts_returns fuel env n :
  1 <= n ->
  (size env + (if (n =? 1)%Z then 1 else 0) < fuel)%nat ->
  exists parts, cookie_parts fuel env n = Some parts.
Proof.
  revert env n. induction fuel as [|fuel IH]; intros env n Hn Hf; [lia|].
  rewrite cookie_parts_S. cbv zeta.
  assert (Hnext : forall env', (size env' + 0 < fuel)%nat ->
            exists parts, cookie_parts fuel env' (n + 1) = Some parts).
  { intros env' Hs. apply IH; [lia|].
    destruct (Z.eqb_spec (n + 1) 1); [lia|exact Hs]. }
  assert (Hdel : forall v, env !! part_name n = Some v ->
            exists parts, cookie_parts fuel env (n + 1) = Some parts).
  { intros v Hv.
    rewrite <- (cookie_parts_irrelevant fuel env (delete (part_name n) env)).
    - apply Hnext. pose proof (map_size_delete (part_name n) env) as D.
      rewrite Hv in D. simpl in D.
      assert (size env <> 0%nat).
      { intros Z0. apply map_size_empty_inv in Z0. subst env.
        rewrite lookup_empty in Hv. discriminate. }
      destruct (n =? 1); lia.
    - intros m Hm. apply lookup_delete_ne. intros E.
      apply part_name_inj in E. lia.
    - lia. }
  destruct (truthy_env (env !! part_name n)) eqn:T.
  - destruct (env !! part_name n) as [v|] eqn:E; [|discriminate].
    rewrite T. destruct (Hdel v eq_refl) as [parts ->]. eexists; reflexivity.
  - destruct (Z.eqb_spec n 1) as [->|Hne].
    + destruct (env !! legacy_name) as [v|]; [|eexists; reflexivity].
      destruct (truthy_env (Some v)); [|eexists; reflexivity].
      destruct (Hnext env) as [parts ->]; [lia|]. eexists; reflexivity.
    + destruct (env !! part_name n) as [v|]; [|eexists; reflexivity].
      rewrite T. eexists; reflexivity.
Qed.

Lemma cookie_parts_more_fuel fuel env n parts :
  cookie_parts fuel env n = Some parts ->
  cookie_parts (S fuel) env n = Some parts.
Proof.
  revert n parts. induction fuel as [|fuel IH]; intros n parts; [discriminate|].
  rewrite (cookie_parts_S (S fuel)), (cookie_parts_S fuel). cbv zeta.
  destruct (if truthy_env (env !! part_name n) then env !! part_name n
            else if n =? 1 then env !! legacy_name else env !! part_name n)
    as [v|]; [|trivial].
  destruct (truthy_env (Some v)); [|trivial].
  destruct (cookie_parts fuel env (n + 1)) as [rest|] eqn:E; [|discriminate].
  rewrite (IH _ _ E). trivial.
Qed.

Lemma cookie_parts_fuel_le fuel fuel' env n parts :
  (fuel <= fuel')%nat ->
  cookie_parts fuel env n = Some parts ->
  cookie_parts fuel' env n = Some parts.
Proof.
  induction 1 as [|fuel' _ IH]; [trivial|].
  intros H. apply cookie_parts_more_fuel, IH, H.
Qed.

Lemma string_app_assoc (a b c : string) : (a +:+ b) +:+ c = a +:+ (b +:+ c).
Proof.
  induction a as [|x a IH]; [reflexivity|].
  change (String x ((a +:+ b) +:+ c) = String x (a +:+ (b +:+ c))).
  rewrite IH. reflexivity.
Qed.

Lemma is_prefix_app needle hay :
  is_prefix needle hay = true -> exists rest, hay = needle +:+ rest.
Proof.
  revert hay. induction needle as [|a n IH]; intros hay; simpl.
  - exists hay. reflexivity.
  - destruct hay as [|b h]; [discriminate|].
    intros H. apply andb_true_iff in H as [E H].
    apply bool_decide_eq_true in E as ->.
    destruct (IH h H) as [rest ->]. exists rest. reflexivity.
Qed.

Lemma is_prefix_refl_app needle rest : is_prefix needle (needle +:+ rest) = true.
Proof.
  induction needle as [|a n IH]; simpl; [reflexivity|].
  rewrite IH, bool_decide_eq_true_2 by reflexivity. reflexivity.
Qed.

Lemma contains_cons needle c hay :
  contains needle hay = true -> contains needle (String c hay) = true.
Proof.
  intros H. change (contains needle (String c hay))
    with (is_prefix needle (String c hay) || contains needle hay).
  rewrite H. apply orb_true_r.
Qed.

Lemma contains_app needle before hay :
  contains needle hay = true -> contains needle (before +:+ hay) = true.
Proof.
  intros H. induction before as [|c b IH]; simpl String.append; [exact H|].
  apply contains_cons, IH.
Qed.

Lemma contains_of_prefix needle hay :
  is_prefix needle hay = true -> contains needle hay = true.
Proof. intros H. destruct hay; simpl; rewrite H; reflexivity. Qed.

(** A text that contains [before +:+ needle] contains [needle]. *)
Lemma contains_longer before needle hay :
  contains (before +:+ needle) hay = true -> contains needle hay = true.
Proof.
  induction hay as [|c h IH].
  - simpl. rewrite orb_false_r. intros H.
    apply is_prefix_app in H as [rest H].
    destruct before; [|discriminate]. destruct needle; [reflexivity|discriminate].
  - change (contains (before +:+ needle) (String c h))
      with (is_prefix (before +:+ needle) (String c h) ||
            contains (before +:+ needle) h).
    intros H. apply orb_true_iff in H as [H|H].
    + apply is_prefix_app in H as [rest ->].
      rewrite string_app_assoc. apply contains_app, contains_of_prefix.
      apply is_prefix_refl_app.
    + apply contains_cons, IH, H.
Qed.

(** [get_cookies_content] returns in every environment: the loop over
    the numbered variables ends, since each round reads a variable not
    read before.  What it returns does not depend on the bound of the
    model once that exceeds the number of variables by two.  Content is
    returned only when it decodes from the collected parts, is not blank
    and names the domain youtube.com; and the separate test for
    www.youtube.com changes nothing: content is turned down for its domain
    exactly when it lacks youtube.com. *)
Theorem get_cookies_content_returns (b64decode_utf8 : string -> option string)
    (fuel : nat) (env : Env) :
  (size env + 1 < fuel)%nat ->
  exists parts,
    cookie_parts fuel env 1 = Some parts /\
    (forall fuel', (fuel <= fuel')%nat ->
       get_cookies_content b64decode_utf8 fuel' env =
       get_cookies_content b64decode_utf8 fuel env) /\
    get_cookies_content b64decode_utf8 fuel env =
      Some
        match b64decode_utf8 (join parts) with
        | Some cookies_content =>
            if bool_decide (parts = []) then None
            else if MessageHandler.is_blank cookies_content then None
            else if contains "youtube.com" cookies_content
            then Some cookies_content
            else None
        | None => None
        end.
Proof.
  intros Hf.
  destruct (cookie_parts_returns fuel env 1) as [parts Hp]; [lia|exact Hf|].
  exists parts. split; [exact Hp|]. split.
  - intros fuel' Hle. unfold get_cookies_content.
    rewrite Hp, (cookie_parts_fuel_le fuel fuel' env 1 parts Hle Hp). reflexivity.
  - unfold get_cookies_content. rewrite Hp.
    destruct parts as [|v rest].
    + simpl. destruct (b64decode_utf8 ""); reflexivity.
    + rewrite bool_decide_eq_false_2 by discriminate.
      destruct (b64decode_utf8 (join (v :: rest))) as [c|]; [|reflexivity].
      destruct (MessageHandler.is_blank c); [reflexivity|].
      destruct (contains "youtube.com" c) eqn:Y; [reflexivity|].
      destruct (contains "www.youtube.com" c) eqn:W; [|reflexivity].
      apply (contains_longer "www." "youtube.com") in W. congruence.
Qed.

Lemma get_cookies_content_returns_witness :
  get_cookies_content undecoded 5 env_part_1_only =
    Some (Some "youtube.com one ").
Proof.
  assert (Hf : (size env_part_1_only + 1 < 5)%nat) by (vm_compute; lia).
  destruct (get_cookies_content_returns undecoded 5 env_part_1_only Hf)
    as (parts & Hp & _ & G).
  rewrite G. vm_compute in Hp. injection Hp as <-. vm_compute. reflexivity.
Defined.


(** What the loop makes of an environment depends on the variables up to
    the first one that is unset or empty only. *)
Lemma cookie_parts_up_to fuel env env' n k :
  n <= k -> 2 <= k ->
  truthy_env (env !! part_name k) = false ->
  (forall m, n <= m <= k -> env' !! part_name m = env !! part_name m) ->
  env' !! legacy_name = env !! legacy_name ->
  cookie_parts fuel env' n = cookie_parts fuel env n.
Proof.
  intros Hnk Hk T Hp Hl. revert n Hnk Hp.
  induction fuel as [|fuel IH]; intros n Hnk Hp; [reflexivity|].
  rewrite !cookie_parts_S. cbv zeta. rewrite Hp, Hl by lia.
  destruct (Z.eq_dec n k) as [->|Hne].
  - rewrite T. destruct (Z.eqb_spec k 1); [lia|].
    destruct (env !! part_name k) as [v|]; [|reflexivity].
    rewrite T. reflexivity.
  - rewrite (IH (n + 1)); [reflexivity|lia|].
    intros m Hm. apply Hp. lia.
Qed.

(** The parts are numbered without a gap: when variable number [k] (from
    2 on) is unset or empty, no variable of a higher number is used,
    whatever it holds. *)
Theorem cookie_parts_stop_at_gap (b64decode_utf8 : string -> option string)
    (fuel : nat) (env env' : Env) (k : Z) :
  2 <= k ->
  truthy_env (env !! part_name k) = false ->
  (forall name, (forall m, k < m -> name <> part_name m) ->
     env' !! name = env !! name) ->
  get_cookies_content b64decode_utf8 fuel env' =
  get_cookies_content b64decode_utf8 fuel env.
Proof.
  intros Hk T Hsame. unfold get_cookies_content.
  rewrite (cookie_parts_up_to fuel env env' 1 k); [reflexivity|lia|exact Hk|exact T| |].
  - intros m Hm. apply Hsame. intros m' Hm' E. apply part_name_inj in E. lia.
  - apply Hsame. intros m _ E. symmetry in E. exact (part_name_not_legacy m E).
Qed.

Lemma cookie_parts_stop_at_gap_witness :
  get_cookies_content undecoded 5 env_without_part_2 =
  get_cookies_content undecoded 5 env_part_1_only.
Proof.
  apply (cookie_parts_stop_at_gap undecoded 5 env_part_1_only
           env_without_part_2 2).
  - lia.
  - vm_compute. reflexivity.
  - intros name Hname. unfold env_without_part_2, env_part_1_only.
    destruct (decide (name = part_name 1)) as [->|N1].
    + rewrite !lookup_insert_eq. reflexivity.
    + rewrite !(lookup_insert_ne _ (part_name 1)) by congruence.
      apply lookup_insert_ne. intros E. apply (Hname 3); [lia|].
      symmetry. exact E.
Defined.


(** The variable without a number is a stand-in for part 1: it is not
    read when part 1 is set and not empty, and otherwise the outcome is
    the one that part 1 holding its value would give, the parts from 2 on
    included. *)
Theorem legacy_variable_stands_for_first_part
    (b64decode_utf8 : string -> option string) (fuel : nat) (env : Env) :
  get_cookies_content b64decode_utf8 (S fuel) env =
    if truthy_env (env !! part_name 1)
    then get_cookies_content b64decode_utf8 (S fuel) (delete legacy_name env)
    else match env !! legacy_name with
         | Some v =>
             get_cookies_content b64decode_utf8 (S fuel)
               (<[part_name 1 := v]> env)
         | None => Some None
         end.
Proof.
  assert (Hrest : forall env', (forall m, 2 <= m ->
              env' !! part_name m = env !! part_name m) ->
            cookie_parts fuel env' (1 + 1) = cookie_parts fuel env (1 + 1)).
  { intros env' H. apply cookie_parts_irrelevant; [|lia].
    intros m Hm. apply H. lia. }
  unfold get_cookies_content. rewrite !cookie_parts_S. cbv zeta.
  change (1 =? 1) with true. cbv iota.
  destruct (truthy_env (env !! part_name 1)) eqn:T.
  - rewrite lookup_delete_ne
      by (intros E; symmetry in E; exact (part_name_not_legacy 1 E)).
    rewrite T, (Hrest (delete legacy_name env)); [reflexivity|].
    intros m _. apply lookup_delete_ne. intros E. symmetry in E.
    exact (part_name_not_legacy m E).
  - destruct (env !! legacy_name) as [v|] eqn:L; [|reflexivity].
    rewrite cookie_parts_S. cbv zeta. change (1 =? 1) with true. cbv iota.
    rewrite lookup_insert_eq.
    rewrite lookup_insert_ne by (apply part_name_not_legacy).
    rewrite L. destruct (truthy_env (Some v)) eqn:Tv.
    + rewrite Tv, (Hrest (<[part_name 1 := v]> env)); [reflexivity|].
      intros m Hm. apply lookup_insert_ne. intros E.
      apply part_name_inj in E. lia.
    + rewrite Tv. reflexivity.
Qed.

(** ** Replies of the buttons *)

Module InteractionFacts.
Import Interaction.

(** Whatever the platform answers, [handle_interaction] never lets the
    error "already acknowledged" (code 40060) reach the button that called
    it, makes at most three calls and delivers the response at most once;
    when an exception does reach the caller, nothing was delivered; and
    when it returns without having delivered, its last call was an attempt
    on the channel that failed. *)
Theorem handle_interaction_absorbs_acknowledged (is_done : bool)
    (fails : nat -> option Exn) :
  let (calls, raised) := handle_interaction is_done fails in
  raised <> Some (HTTPException already_acknowledged) /\
  (1 <= length calls <= 3)%nat /\
  (length (delivered calls) <= 1)%nat /\
  (raised <> None -> delivered calls = []) /\
  (raised = None -> delivered calls = [] ->
     exists e, last calls = Some (ChannelSend, Some e)).
Proof.
  unfold handle_interaction, first_attempt.
  destruct (fails 0%nat) as [[c0|]|] eqn:F0,
    (fails 1%nat) as [[c1|]|] eqn:F1,
    (fails 2%nat) as [[c2|]|] eqn:F2, is_done;
    repeat (simpl; rewrite ?F0, ?F1, ?F2;
            try match goal with
                | |- context [?c =? already_acknowledged] =>
                    destruct (Z.eqb_spec c already_acknowledged) as [->|?]
                end);
    repeat split; try lia; try congruence;
    try (intros; eexists; reflexivity).
Qed.

End InteractionFacts.

(** ** MessageHandler.initialize *)

Module InitializeFacts.
Import MessageHandler.

Ltac run_initialize :=
  cbv beta iota zeta delta
    [initialize try_except bind channel_send _log_message modify ret call
     set_message set_initialized set_last_error set_thinking_message
     handler calls message initialized last_error thinking_message
     message_history fst snd].

(** [initialize] raises exactly when both the deferral and the fallback
    channel message fail, and then leaves the handler uninitialized.  When
    the deferral succeeds the handler is initialized with a thinking
    message and no new message; when it fails and the fallback succeeds the
    handler is initialized with the fallback as its message and no new
    thinking message.  An error other than not-found is kept in
    [last_error]. *)
Theorem initialize_outcome (pf : Platform) (s : State) :
  let n := length (calls s) in
  let h := handler s in
  let r := initialize pf s in
  let h' := handler (snd r) in
  match raises pf n with
  | None =>
      fst r = Returns tt /\
      calls (snd r) = calls s ++ [Defer] /\
      initialized h' = true /\
      thinking_message h' = Some (created pf n) /\
      message h' = message h
  | Some e =>
      (e = OtherError -> last_error h' = Some e) /\
      thinking_message h' = thinking_message h /\
      calls (snd r) = calls s ++ [Defer; ChannelSend searching] /\
      match raises pf (S n) with
      | None =>
          fst r = Returns tt /\ initialized h' = true /\
          message h' = Some (created pf (S n))
      | Some e' =>
          fst r = Raises e' /\ initialized h' = initialized h /\
          message h' = message h
      end
  end.
Proof.
  destruct s as [h cs]. destruct h as [msg ini le mh lsa lse tm].
  run_initialize.
  destruct (raises pf (length cs)) as [[|]|] eqn:R0; run_initialize;
    rewrite ?length_app, ?Nat.add_1_r; cbn [length Nat.add];
    try destruct (raises pf (S (length cs))) eqn:R1; run_initialize;
    rewrite <- ?app_assoc; repeat split; congruence.
Qed.

End InitializeFacts.
